(** * Smart contract auditor: the transcript parser and the audit pipeline

    A shallow embedding of [main.py]: the stage prompts built by
    [create_audit_crew], the regular-expression parser [parse_crew_output],
    the credential lookup [get_llm] and the request handler [audit_contract].

    Python [str] values are modelled as [string] at the interfaces and as
    [list ascii] inside the matcher; a character stands for the code point
    of the same number (U+0000 to U+00FF).  Python integers are [Z].
    Exceptions are values of [exn]; a computation that may raise has type
    [result A].  Interpreter resource limits (memory, the cap on the number
    of digits [int] converts) are outside the model. *)

From Stdlib Require Import String Ascii List ZArith NArith QArith Lia Bool.
From stdpp Require Import base list strings gmap.

Local Open Scope Z_scope.

(** ** Characters *)

Abbreviation str := (list ascii).

Definition code (a : ascii) : N := N_of_ascii a.

Definition newline : ascii := ascii_of_N 10.

(** [str.isspace] on one character; the same set is the regex class [\s]. *)
Definition is_space (a : ascii) : bool :=
  let n := code a in
  ((9 <=? n) && (n <=? 13) || (28 <=? n) && (n <=? 32) || (n =? 133) || (n =? 160))%N.

(** The regex class [\d] (decimal digits). *)
Definition is_digit (a : ascii) : bool :=
  let n := code a in ((48 <=? n) && (n <=? 57))%N.

Definition digit_value (a : ascii) : Z := Z.of_N (code a - 48).

(** Simple lower-casing of one character, as [str.lower] and the matcher's
    case folding do it below U+0100. *)
Definition to_lower (a : ascii) : ascii :=
  let n := code a in
  if ((65 <=? n) && (n <=? 90) ||
      (192 <=? n) && (n <=? 222) && negb (n =? 215))%N
  then ascii_of_N (n + 32) else a.

Definition lower (s : str) : str := map to_lower s.

(** ** Python string helpers *)

Fixpoint lstrip (s : str) : str :=
  match s with
  | a :: s' => if is_space a then lstrip s' else s
  | [] => []
  end.

Definition rstrip (s : str) : str := rev (lstrip (rev s)).

(** [s.strip()] *)
Definition strip (s : str) : str := lstrip (rstrip s).

(** ** Exceptions *)

Inductive exn : Type :=
| ValueError (msg : string)
| IndexError (msg : string)
| GenerationError (msg : string)
| HTTPException (status_code : Z) (detail : string).

(** [str(e)] *)
Definition exn_str (e : exn) : string :=
  match e with
  | ValueError m | IndexError m | GenerationError m => m
  | HTTPException _ d => d
  end.

Definition result : Type -> Type := sum exn.

Definition raise {A} (e : exn) : result A := inl e.

#[global] Instance result_ret : MRet result := fun A x => inr x.

#[global] Instance result_bind : MBind result := fun A B f m =>
  match m with
  | inl e => inl e
  | inr x => f x
  end.

(** ** [int(s)] on a string

    Optional surrounding whitespace, an optional sign, then decimal digits
    in which single underscores may separate digits. *)

Fixpoint digits_value_from (acc : Z) (s : str) : Z :=
  match s with
  | [] => acc
  | a :: s' => digits_value_from (10 * acc + digit_value a) s'
  end.

Definition digits_value (s : str) : Z := digits_value_from 0 s.

(** [after_digit] tells whether the previous character was a digit. *)
Fixpoint int_body (after_digit : bool) (acc : Z) (s : str) : option Z :=
  match s with
  | [] => if after_digit then Some acc else None
  | a :: s' =>
      if is_digit a then int_body true (10 * acc + digit_value a) s'
      else if (code a =? 95)%N && after_digit then
        match s' with
        | b :: _ => if is_digit b then int_body false acc s' else None
        | [] => None
        end
      else None
  end.

Definition py_int (s : str) : result Z :=
  let t := strip s in
  let bad := ValueError "invalid literal for int() with base 10" in
  match t with
  | [] => raise bad
  | a :: t' =>
      if (code a =? 43)%N then
        match int_body false 0 t' with Some z => mret z | None => raise bad end
      else if (code a =? 45)%N then
        match int_body false 0 t' with Some z => mret (- z) | None => raise bad end
      else
        match int_body false 0 t with Some z => mret z | None => raise bad end
  end.

(** ** The fragment of Python's [re] used by the parser

    Backtracking matching with the library's priorities: the left
    alternative first, a greedy repetition longest first, a lazy one
    shortest first.  Every repetition in the program's patterns is over a
    single character class. *)

Record flags : Type := { ignorecase : bool; dotall : bool }.

Inductive cset : Type :=
| CAny                (* [.] *)
| CDigit              (* [\d] *)
| CSpace              (* [\s] *)
| CLit (a : ascii).   (* a literal character *)

Inductive regex : Type :=
| Eps
| Chr (cs : cset)
| Star (cs : cset) (greedy : bool)
| Seq (r1 r2 : regex)
| Alt (r1 r2 : regex)
| Group (i : nat) (r : regex)      (* capturing group number [i], from 1 *)
| Look (r : regex)                 (* [(?=r)] *)
| Eos.                             (* [$] *)

Abbreviation caps := (list (option str)).

Definition cset_match (fl : flags) (cs : cset) (a : ascii) : bool :=
  match cs with
  | CAny => dotall fl || negb (code a =? 10)%N
  | CDigit => is_digit a
  | CSpace => is_space a
  | CLit p =>
      if ignorecase fl then (code (to_lower a) =? code (to_lower p))%N
      else (code a =? code p)%N
  end.

(** [$] holds at the end of the text and just before a final newline. *)
Definition at_end (s : str) : bool :=
  match s with
  | [] => true
  | [a] => (code a =? 10)%N
  | _ => false
  end.

Definition or_else {R} (x y : option R) : option R :=
  match x with
  | Some _ => x
  | None => y
  end.

Section Matcher.
Context (fl : flags).

Fixpoint lazy_star {R} (cs : cset) (s : str) (k : str -> option R) : option R :=
  or_else (k s)
    match s with
    | a :: s' => if cset_match fl cs a then lazy_star cs s' k else None
    | [] => None
    end.

Fixpoint greedy_star {R} (cs : cset) (s : str) (k : str -> option R) : option R :=
  match s with
  | a :: s' =>
      if cset_match fl cs a then or_else (greedy_star cs s' k) (k s) else k s
  | [] => k s
  end.

(** [rmatch r s c k]: match [r] at the front of [s] with the groups [c]
    set so far, then hand the rest of the text and the groups to [k];
    backtrack into [r] when [k] fails. *)
Fixpoint rmatch (r : regex) {R : Type} (s : str) (c : caps)
    (k : str -> caps -> option R) : option R :=
  match r with
  | Eps => k s c
  | Chr cs =>
      match s with
      | a :: s' => if cset_match fl cs a then k s' c else None
      | [] => None
      end
  | Star cs greedy =>
      if greedy then greedy_star cs s (fun s' => k s' c)
      else lazy_star cs s (fun s' => k s' c)
  | Seq r1 r2 => rmatch r1 s c (fun s' c' => rmatch r2 s' c' k)
  | Alt r1 r2 => or_else (rmatch r1 s c k) (rmatch r2 s c k)
  | Group i r1 =>
      rmatch r1 s c (fun s' c' =>
        k s' (<[pred i := Some (take (length s - length s') s)]> c'))
  | Look r1 =>
      match rmatch r1 s c (fun _ c' => Some c') with
      | Some c' => k s c'
      | None => None
      end
  | Eos => if at_end s then k s c else None
  end.
End Matcher.

Fixpoint ngroups (r : regex) : nat :=
  match r with
  | Eps | Chr _ | Star _ _ | Eos => 0
  | Seq r1 r2 | Alt r1 r2 => Nat.max (ngroups r1) (ngroups r2)
  | Group i r1 => Nat.max i (ngroups r1)
  | Look r1 => ngroups r1
  end.

(** One attempt at the front of [s]: the unmatched rest and the groups. *)
Definition match_at (fl : flags) (r : regex) (s : str) : option (str * caps) :=
  rmatch fl r s (replicate (ngroups r) None) (fun s' c => Some (s', c)).

(** [re.search]: the leftmost position where an attempt succeeds. *)
Fixpoint re_search (fl : flags) (r : regex) (s : str) : option caps :=
  match match_at fl r s with
  | Some (_, c) => Some c
  | None =>
      match s with
      | _ :: s' => re_search fl r s'
      | [] => None
      end
  end.

(** [re.findall]: the matches from left to right, each attempt starting
    where the previous match ended.  [skip] counts the characters of the
    previous match still to be passed over.  After an empty match the scan
    moves on by one character; the program's patterns all begin with a
    literal or a digit, so they never match the empty text. *)
Fixpoint findall_from (fl : flags) (r : regex) (skip : nat) (s : str) : list caps :=
  match skip with
  | S n =>
      match s with
      | _ :: s' => findall_from fl r n s'
      | [] => []
      end
  | O =>
      match match_at fl r s with
      | Some (rest, c) =>
          c :: match s with
               | _ :: s' => findall_from fl r (length s - length rest - 1) s'
               | [] => []
               end
      | None =>
          match s with
          | _ :: s' => findall_from fl r 0 s'
          | [] => []
          end
      end
  end.

Definition re_findall (fl : flags) (r : regex) (s : str) : list caps :=
  findall_from fl r 0 s.

(** [m.group(i)] and the element [i-1] of a [findall] tuple: the text of
    group [i], the empty string for a group that took no part. *)
Definition group (c : caps) (i : nat) : result str :=
  match c !! pred i with
  | Some (Some t) => mret t
  | Some None => mret []
  | None => raise (IndexError "no such group")
  end.

(** *** Writing patterns *)

Fixpoint lit_chars (w : str) : regex :=
  match w with
  | [] => Eps
  | [a] => Chr (CLit a)
  | a :: w' => Seq (Chr (CLit a)) (lit_chars w')
  end.

(** A run of literal characters. *)
Definition lit (w : string) : regex := lit_chars (list_ascii_of_string w).

(** [x+] and [x+?] *)
Definition plus (cs : cset) (greedy : bool) : regex := Seq (Chr cs) (Star cs greedy).

(** [x?] *)
Definition opt (cs : cset) : regex := Alt (Chr cs) Eps.

(** [r1 r2 ... rn] *)
Definition seqs (rs : list regex) : regex := foldr Seq Eps rs.

(** [r|r1|...|rn] *)
Fixpoint alts (r : regex) (rs : list regex) : regex :=
  match rs with
  | [] => r
  | r' :: rs' => Alt r (alts r' rs')
  end.

(** ** The parser *)

Record Vulnerability : Type := {
  type : string;
  severity : string;
  lines : string;
  description : string;
  exploit_scenario : string;
  recommendation : string
}.

Record GasOptimization : Type := {
  issue : string;
  location : string;
  current_cost : string;
  potential_savings : string;
  technique : string;
  example : string
}.

Definition any_lazy : regex := plus CAny false.      (* [.+?] *)
Definition spaces : regex := Star CSpace true.        (* [\s*] *)
Definition digits : regex := plus CDigit true.        (* [\d+] *)

(** [VULNERABILITY \d+: (.+?) - (Critical|High|Medium|Low)\s*Description: (.+?)\s*Fix: (.+?)(?=VULNERABILITY|OPTIMIZATION|QUALITY|EXECUTIVE|$)] *)
Definition vuln_pattern : regex :=
  seqs [ lit "VULNERABILITY "; digits; lit ": "; Group 1 any_lazy; lit " - ";
         Group 2 (alts (lit "Critical") [lit "High"; lit "Medium"; lit "Low"]);
         spaces; lit "Description: "; Group 3 any_lazy;
         spaces; lit "Fix: "; Group 4 any_lazy;
         Look (alts (lit "VULNERABILITY")
                 [lit "OPTIMIZATION"; lit "QUALITY"; lit "EXECUTIVE"; Eos]) ].

(** [OPTIMIZATION \d+: (.+?)\s*Location: (.+?)\s*Technique: (.+?)\s*Savings: (.+?)(?=OPTIMIZATION|QUALITY|EXECUTIVE|$)] *)
Definition opt_pattern : regex :=
  seqs [ lit "OPTIMIZATION "; digits; lit ": "; Group 1 any_lazy;
         spaces; lit "Location: "; Group 2 any_lazy;
         spaces; lit "Technique: "; Group 3 any_lazy;
         spaces; lit "Savings: "; Group 4 any_lazy;
         Look (alts (lit "OPTIMIZATION") [lit "QUALITY"; lit "EXECUTIVE"; Eos]) ].

(** [QUALITY SCORE: (\d+)] *)
Definition score_pattern : regex :=
  seqs [ lit "QUALITY SCORE: "; Group 1 digits ].

(** [RECOMMENDATIONS?:(.+?)(?=COMPLIANCE|EXECUTIVE|$)] *)
Definition rec_pattern : regex :=
  seqs [ lit "RECOMMENDATION"; opt (CLit "S"); lit ":"; Group 1 any_lazy;
         Look (alts (lit "COMPLIANCE") [lit "EXECUTIVE"; Eos]) ].

(** [\d+\.\s*(.+?)(?=\d+\.|$)] *)
Definition item_pattern : regex :=
  seqs [ digits; lit "."; spaces; Group 1 any_lazy;
         Look (alts (seqs [digits; lit "."]) [Eos]) ].

Definition DOTALL_IGNORECASE : flags := {| ignorecase := true; dotall := true |}.
Definition IGNORECASE : flags := {| ignorecase := true; dotall := false |}.
Definition DOTALL : flags := {| ignorecase := false; dotall := true |}.

(** The text of a group, stripped, as a [string]. *)
Definition stripped (c : caps) (i : nat) : result string :=
  t ← group c i ; mret (string_of_list_ascii (strip t)).

Definition vulnerability_of (m : caps) : result Vulnerability :=
  m0 ← stripped m 1;
  m1 ← stripped m 2;
  m2 ← stripped m 3;
  m3 ← stripped m 4;
  mret {| type := m0;
          severity := m1;
          lines := "Multiple";
          description := m2;
          exploit_scenario := "See description";
          recommendation := m3 |}.

Definition gas_optimization_of (m : caps) : result GasOptimization :=
  m0 ← stripped m 1;
  m1 ← stripped m 2;
  m3 ← stripped m 4;
  m2 ← stripped m 3;
  mret {| issue := m0;
          location := m1;
          current_cost := "N/A";
          potential_savings := m3;
          technique := m2;
          example := "" |}.

(** [v['severity'].lower() == word] *)
Definition severity_is (word : string) (v : Vulnerability) : bool :=
  bool_decide (lower (list_ascii_of_string (severity v)) = list_ascii_of_string word).

(** [sum(1 for v in vs if p v)] *)
Definition count_if {A} (p : A -> bool) (vs : list A) : Z :=
  Z.of_nat (length (filter (fun v => p v = true) vs)).

Definition severity_formula (critical_count high_count total : Z) : Z :=
  Z.min 10 (critical_count * 3 + high_count * 2 + total).

Definition parse_output : Type :=
  list Vulnerability * list GasOptimization * list string * Z * Z.

Definition parse_crew_output (result_text : string) : result parse_output :=
  let text := list_ascii_of_string result_text in
  let code_quality_score := 70 in
  let severity_score := 5 in     (* overwritten below *)
  (* vulnerabilities *)
  let vuln_matches := re_findall DOTALL_IGNORECASE vuln_pattern text in
  vulnerabilities ← mapM vulnerability_of vuln_matches;
  (* gas optimizations *)
  let opt_matches := re_findall DOTALL_IGNORECASE opt_pattern text in
  gas_optimizations ← mapM gas_optimization_of opt_matches;
  (* quality score *)
  code_quality_score ←
    match re_search IGNORECASE score_pattern text with
    | Some score_match => t ← group score_match 1 ; py_int t
    | None => mret code_quality_score
    end;
  (* recommendations *)
  security_recommendations ←
    match re_search DOTALL_IGNORECASE rec_pattern text with
    | Some rec_match =>
        rec_text ← group rec_match 1;
        recs ← mapM (fun m => group m 1) (re_findall DOTALL item_pattern rec_text);
        mret (map (fun r => string_of_list_ascii (strip r))
                (filter (fun r => strip r <> []) recs))
    | None => mret []
    end;
  (* severity score *)
  let critical_count := count_if (severity_is "critical") vulnerabilities in
  let high_count := count_if (severity_is "high") vulnerabilities in
  let severity_score :=
    severity_formula critical_count high_count (Z.of_nat (length vulnerabilities)) in
  mret (vulnerabilities, gas_optimizations, security_recommendations,
        code_quality_score, severity_score).

(** ** The model handle *)

Record LLM : Type := {
  model : string;
  api_key : string;
  temperature : Q
}.

(** The process environment ([os.environ]) is passed explicitly. *)
Abbreviation environment := (gmap string string).

(** [os.getenv(name)] *)
Definition getenv (environ : environment) (name : string) : option string :=
  environ !! name.

(** [bool(os.getenv("GEMINI_API_KEY"))], as [health_check] reports it. *)
Definition gemini_configured (environ : environment) : bool :=
  match getenv environ "GEMINI_API_KEY" with
  | Some v => negb (bool_decide (v = ""))
  | None => false
  end.

(** The body assigns a string literal to [api_key] and tests that; it
    does not read [environ]. *)
Definition get_llm (environ : environment) : result LLM :=
  let api_key := "GEMINI_API_KEY" in
  if bool_decide (api_key = "") then
    raise (ValueError
      "GEMINI_API_KEY not found in environment variables. Please set it in .env file")
  else
    mret {| model := "gemini/gemini-2.0-flash";
            api_key := api_key;
            temperature := (3 # 10)%Q |}.

(** ** Agents, tasks and the crew *)

Record Agent : Type := {
  role : string;
  goal : string;
  backstory : string;
  llm : LLM;
  agent_verbose : bool;
  allow_delegation : bool
}.

Record Task : Type := {
  task_description : string;
  agent : Agent;
  expected_output : string
}.

(** Only the process the program selects is modelled. *)
Inductive Process : Type := sequential.

Record Crew : Type := {
  agents : list Agent;
  tasks : list Task;
  process : Process;
  crew_verbose : bool
}.

Definition nl : string := String newline EmptyString.

(** A triple-quoted literal, one element per source line. *)
Definition text_lines (ls : list string) : string := String.concat nl ls.

(** [s[:n]] *)
Fixpoint slice_to (n : nat) (s : string) : string :=
  match n, s with
  | S n', String a s' => String a (slice_to n' s')
  | _, _ => EmptyString
  end.

Definition vulnerability_scanner (llm : LLM) : Agent :=
  {| role := "Smart Contract Vulnerability Expert";
     goal := "Identify security vulnerabilities including reentrancy, integer overflow, access control issues, and front-running risks";
     backstory := text_lines
                     [ "You are a legendary smart contract security researcher who has ";
                       "        discovered numerous critical vulnerabilities in production contracts. You have ";
                       "        deep knowledge of common attack vectors and emerging threats." ];
     llm := llm;
     agent_verbose := true;
     allow_delegation := false |}.

Definition gas_optimizer (llm : LLM) : Agent :=
  {| role := "Gas Optimization Engineer";
     goal := "Analyze code for gas inefficiencies and suggest optimizations to reduce transaction costs";
     backstory := text_lines
                     [ "You are a performance optimization expert specializing in ";
                       "        blockchain gas efficiency. You know every trick to minimize gas costs while ";
                       "        maintaining security." ];
     llm := llm;
     agent_verbose := true;
     allow_delegation := false |}.

Definition code_quality_auditor (llm : LLM) : Agent :=
  {| role := "Smart Contract Code Quality Reviewer";
     goal := "Assess code quality, best practices, maintainability, and documentation";
     backstory := text_lines
                     [ "You are a senior blockchain architect with expertise in ";
                       "        clean code principles applied to smart contracts. You ensure code is ";
                       "        readable, maintainable, and well-documented." ];
     llm := llm;
     agent_verbose := true;
     allow_delegation := false |}.

Definition security_reporter (llm : LLM) : Agent :=
  {| role := "Security Report Specialist";
     goal := "Compile comprehensive security audit reports with actionable recommendations";
     backstory := text_lines
                     [ "You are a technical writer specializing in security documentation. ";
                       "        You transform complex security findings into clear, actionable reports." ];
     llm := llm;
     agent_verbose := true;
     allow_delegation := false |}.

Definition vulnerability_description (contract_code contract_language : string) : string :=
  text_lines [
    "Analyze this " +:+ contract_language +:+ " smart contract for security vulnerabilities.";
    "";
    "Contract Code:";
    "```";
    slice_to 2000 contract_code;
    "```";
    "";
    "Identify vulnerabilities like:";
    "1. Reentrancy vulnerabilities";
    "2. Integer overflow/underflow risks";
    "3. Access control issues";
    "4. Unchecked external calls";
    "5. Front-running possibilities";
    "";
    "For each vulnerability, provide:";
    "- Type and severity (Critical/High/Medium/Low)";
    "- Description";
    "- How to fix it";
    "";
    "Respond in this format:";
    "VULNERABILITY 1: [Type] - [Severity]";
    "Description: [details]";
    "Fix: [recommendation]";
    "";
    "VULNERABILITY 2: [Type] - [Severity]";
    "...and so on" ].

Definition gas_optimization_description (contract_code contract_language : string) : string :=
  text_lines [
    "Analyze this " +:+ contract_language +:+ " smart contract for gas optimization opportunities.";
    "";
    "Contract Code:";
    "```";
    slice_to 2000 contract_code;
    "```";
    "";
    "Find optimization opportunities like:";
    "1. Inefficient storage patterns";
    "2. Redundant operations";
    "3. Expensive loops";
    "";
    "For each optimization, provide:";
    "- Location in code";
    "- Current issue";
    "- Optimization technique";
    "- Estimated savings";
    "";
    "Respond in this format:";
    "OPTIMIZATION 1: [Issue]";
    "Location: [where]";
    "Technique: [how to fix]";
    "Savings: [estimate]";
    "";
    "OPTIMIZATION 2: ...and so on" ].

Definition code_quality_description (contract_code contract_language : string) : string :=
  text_lines [
    "Review this " +:+ contract_language +:+ " smart contract for code quality.";
    "";
    "Contract Code:";
    "```";
    slice_to 2000 contract_code;
    "```";
    "";
    "Evaluate:";
    "1. Code organization and structure";
    "2. Naming conventions";
    "3. Documentation";
    "4. Best practices";
    "";
    "Provide:";
    "- Quality score (0-100)";
    "- Issues found";
    "- Recommendations";
    "";
    "Respond in this format:";
    "QUALITY SCORE: [0-100]";
    "";
    "ISSUES:";
    "1. [Issue description]";
    "2. [Issue description]";
    "";
    "RECOMMENDATIONS:";
    "1. [Recommendation]";
    "2. [Recommendation]" ].

Definition report_description : string :=
  text_lines [
    "Create a comprehensive security audit summary.";
    "";
    "Based on all previous findings, provide:";
    "1. Executive summary";
    "2. Overall risk level (Critical/High/Medium/Low)";
    "3. Top 3 priority recommendations";
    "4. Compliance notes";
    "";
    "Respond in this format:";
    "EXECUTIVE SUMMARY:";
    "[2-3 sentence overview]";
    "";
    "RISK LEVEL: [Critical/High/Medium/Low]";
    "";
    "PRIORITY RECOMMENDATIONS:";
    "1. [Most critical action]";
    "2. [Second priority]";
    "3. [Third priority]";
    "";
    "COMPLIANCE: [Any standards compliance notes]" ].

Definition create_audit_crew (environ : environment)
    (contract_code contract_language : string) : result Crew :=
  llm ← get_llm environ;
  let vulnerability_task :=
    {| task_description := vulnerability_description contract_code contract_language;
       agent := vulnerability_scanner llm;
       expected_output := "List of vulnerabilities with severity and fixes" |} in
  let gas_optimization_task :=
    {| task_description := gas_optimization_description contract_code contract_language;
       agent := gas_optimizer llm;
       expected_output := "List of gas optimizations with savings estimates" |} in
  let code_quality_task :=
    {| task_description := code_quality_description contract_code contract_language;
       agent := code_quality_auditor llm;
       expected_output := "Code quality score and recommendations" |} in
  let report_task :=
    {| task_description := report_description;
       agent := security_reporter llm;
       expected_output := "Executive summary and priority recommendations" |} in
  mret {| agents := [vulnerability_scanner llm; gas_optimizer llm;
                     code_quality_auditor llm; security_reporter llm];
          tasks := [vulnerability_task; gas_optimization_task;
                    code_quality_task; report_task];
          process := sequential;
          crew_verbose := true |}.

(** The stage prompts of a request, in stage order. *)
Definition stage_prompts (environ : environment)
    (contract_code contract_language : string) : result (list string) :=
  crew ← create_audit_crew environ contract_code contract_language;
  mret (map task_description (tasks crew)).

(** ** Running the crew *)

(** One request to the Model Gateway: the stage, its prompt, the raw
    outputs of the earlier stages handed on as context, and the sampling
    temperature of the stage's model handle. *)
Record GatewayCall : Type := {
  stage_index : nat;
  prompt : string;
  context : list string;
  call_temperature : Q
}.

(** The gateway: generated text, or the error of a failed call. *)
Abbreviation gateway := (GatewayCall -> result string).

(** The requests made so far, oldest first. *)
Abbreviation trace := (list GatewayCall).

(** Modelled from the spec: the Pipeline Orchestrator, which is
    [Crew.kickoff] of the crewai package for [Process.sequential] and is
    not part of the sources.  Stages run strictly in order, each one
    gateway call; stage k+1 starts only after the call of stage k has
    returned; every prior raw output is passed on as context; the first
    failing call ends the run with that error, with no retry and no later
    stage; a complete run yields the stage outputs in stage order. *)
Fixpoint run_stages (generate : gateway) (k : nat) (ts : list Task)
    (outputs : list string) (calls : trace) : trace * result (list string) :=
  match ts with
  | [] => (calls, mret outputs)
  | t :: ts' =>
      let call := {| stage_index := k;
                     prompt := task_description t;
                     context := outputs;
                     call_temperature := temperature (llm (agent t)) |} in
      match generate call with
      | inl e => (calls ++ [call], raise e)
      | inr raw_text => run_stages generate (S k) ts' (outputs ++ [raw_text]) (calls ++ [call])
      end
  end.

(** Modelled from the spec: [crew.kickoff()]. *)
Definition kickoff (generate : gateway) (crew : Crew) : trace * result (list string) :=
  match process crew with
  | sequential => run_stages generate 1 (tasks crew) [] []
  end.

(** Modelled from the spec: [str(result)], the Transcript, which is the
    concatenation of the raw stage outputs in stage order. *)
Definition transcript (outputs : list string) : string := String.concat "" outputs.

(** ** The request handler *)

Record ContractSubmission : Type := {
  contract_name : string;
  contract_language : string;
  contract_code : string
}.

Record AuditResult : Type := {
  audit_contract_name : string;
  timestamp : string;
  severity_score : Z;
  vulnerabilities : list Vulnerability;
  gas_optimizations : list GasOptimization;
  security_recommendations : list string;
  code_quality_score : Z;
  detailed_report : string
}.

(** [except Exception as e: raise HTTPException(500, f"Audit failed: {str(e)}")] *)
Definition audit_failed {A} (e : exn) : result A :=
  raise (HTTPException 500 ("Audit failed: " +:+ exn_str e)).

(** The body of [audit_contract] inside its [try].  [now] is the reading
    of the clock at assembly time; printing is left out.  The trace lists
    the gateway calls the handler caused. *)
Definition audit_contract (environ : environment) (generate : gateway)
    (now : string) (submission : ContractSubmission) : trace * result AuditResult :=
  match create_audit_crew environ (contract_code submission)
          (contract_language submission) with
  | inl e => ([], audit_failed e)
  | inr crew =>
      match kickoff generate crew with
      | (calls, inl e) => (calls, audit_failed e)
      | (calls, inr outputs) =>
          let result_text := transcript outputs in
          match parse_crew_output result_text with
          | inl e => (calls, audit_failed e)
          | inr (vulnerabilities, gas_optimizations, security_recommendations,
                 code_quality_score, severity_score) =>
              (calls,
               mret {| audit_contract_name := contract_name submission;
                       timestamp := now;
                       severity_score := severity_score;
                       vulnerabilities := vulnerabilities;
                       gas_optimizations := gas_optimizations;
                       security_recommendations := security_recommendations;
                       code_quality_score := code_quality_score;
                       detailed_report := result_text |})
          end
      end
  end.

(** ** What a successful match means

    [matches fl r s c s' c']: [r] can consume a prefix of [s], leaving
    [s'], and turn the groups [c] into [c'].  The matcher only ever
    answers with such a match ([rmatch_sound]). *)

Fixpoint matches (fl : flags) (r : regex) (s : str) (c : caps) (s' : str) (c' : caps) : Prop :=
  match r with
  | Eps => s' = s /\ c' = c
  | Chr cs => exists a, s = a :: s' /\ cset_match fl cs a = true /\ c' = c
  | Star cs _ =>
      exists v, s = v ++ s' /\ Forall (fun a => cset_match fl cs a = true) v /\ c' = c
  | Seq r1 r2 => exists s1 c1, matches fl r1 s c s1 c1 /\ matches fl r2 s1 c1 s' c'
  | Alt r1 r2 => matches fl r1 s c s' c' \/ matches fl r2 s c s' c'
  | Group i r1 =>
      exists c1, matches fl r1 s c s' c1 /\
                 c' = <[pred i := Some (take (length s - length s') s)]> c1
  | Look r1 => s' = s /\ exists s1, matches fl r1 s c s1 c'
  | Eos => at_end s = true /\ s' = s /\ c' = c
  end.

(** Patterns without capturing groups. *)
Fixpoint groupless (r : regex) : bool :=
  match r with
  | Eps | Chr _ | Star _ _ | Eos => true
  | Seq r1 r2 | Alt r1 r2 => groupless r1 && groupless r2
  | Group _ _ => false
  | Look r1 => groupless r1
  end.

(** Equality of two texts up to letter case: [a.lower() == b.lower()]. *)
Definition same_nocase (a b : string) : Prop :=
  lower (list_ascii_of_string a) = lower (list_ascii_of_string b).

(** The closed set of severities the stages are asked to use. *)
Definition severity_words : list string := ["Critical"; "High"; "Medium"; "Low"].

Definition known_severity (sev : string) : Prop :=
  exists w, w ∈ severity_words /\ same_nocase sev w.

(** The components of the parser's result. *)
Definition out_vulnerabilities (o : parse_output) : list Vulnerability := o.1.1.1.1.
Definition out_gas_optimizations (o : parse_output) : list GasOptimization := o.1.1.1.2.
Definition out_recommendations (o : parse_output) : list string := o.1.1.2.
Definition out_severity_score (o : parse_output) : Z := o.2.

Definition critical_count (vs : list Vulnerability) : Z :=
  count_if (severity_is "critical") vs.
Definition high_count (vs : list Vulnerability) : Z :=
  count_if (severity_is "high") vs.


(** What the quality-score step yields for a transcript. *)
Definition quality_score_spec (text : str) (q : Z) : Prop :=
  match re_search IGNORECASE score_pattern text with
  | Some score_match =>
      exists d : str, group score_match 1 = inr d /\ d <> [] /\
                      Forall (fun a => is_digit a = true) d /\ q = digits_value d
  | None => q = 70
  end.

(** The transcript of the worked example. *)
Definition sample_transcript : string :=
  text_lines [ "VULNERABILITY 1: Reentrancy - Critical";
               "Description: External call before state update.";
               "Fix: Use checks-effects-interactions.";
               "";
               "QUALITY SCORE: 85";
               "";
               "RECOMMENDATIONS:";
               "1. Add reentrancy guard";
               "2. Increase test coverage" ].

Definition sample_vulnerability : Vulnerability :=
  {| type := "Reentrancy";
     severity := "Critical";
     lines := "Multiple";
     description := "External call before state update.";
     exploit_scenario := "See description";
     recommendation := "Use checks-effects-interactions." |}.

(** The gateway calls of the first two stages of a request. *)
Definition stage1_call (code lang : string) : GatewayCall :=
  {| stage_index := 1;
     prompt := vulnerability_description code lang;
     context := [];
     call_temperature := (3 # 10)%Q |}.

Definition stage2_call (code lang stage1_text : string) : GatewayCall :=
  {| stage_index := 2;
     prompt := gas_optimization_description code lang;
     context := [stage1_text];
     call_temperature := (3 # 10)%Q |}.

(** A gateway that answers stage 1 and fails from stage 2 on. *)
Definition failing_gateway : gateway := fun call =>
  if (stage_index call =? 1)%nat then inr sample_transcript
  else inl (GenerationError "backend unavailable").

(** A source text of [n] characters. *)
Definition filler (n : nat) : string := string_of_list_ascii (repeat "x"%char n).

(** ** Further notions used by the properties *)

(** The text does not begin with a whitespace character. *)
Definition starts_clean (s : str) : Prop :=
  match s with
  | a :: _ => is_space a = false
  | [] => True
  end.

(** The text neither begins nor ends with a whitespace character. *)
Definition trimmed (s : string) : Prop :=
  starts_clean (list_ascii_of_string s) /\
  starts_clean (rev (list_ascii_of_string s)).

Definition medium_count (vs : list Vulnerability) : Z :=
  count_if (severity_is "medium") vs.
Definition low_count (vs : list Vulnerability) : Z :=
  count_if (severity_is "low") vs.

(** The recommendation step of the parser on its own. *)
Definition recommendations_of (text : str) : result (list string) :=
  match re_search DOTALL_IGNORECASE rec_pattern text with
  | Some rec_match =>
      rec_text ← group rec_match 1;
      recs ← mapM (fun m => group m 1) (re_findall DOTALL item_pattern rec_text);
      mret (map (fun r => string_of_list_ascii (strip r))
              (filter (fun r => strip r <> []) recs))
  | None => mret []
  end.

(** The quality-score step of the parser on its own. *)
Definition quality_score_of (text : str) : result Z :=
  match re_search IGNORECASE score_pattern text with
  | Some score_match => t ← group score_match 1; py_int t
  | None => mret 70
  end.

(** Does the text contain a decimal digit? *)
Definition has_digit (s : string) : bool := existsb is_digit (list_ascii_of_string s).


(** Is the text a non-empty run of decimal digits? *)
Definition all_digits (s : string) : bool :=
  negb (bool_decide (s = EmptyString)) && forallb is_digit (list_ascii_of_string s).

(** ** The other endpoints and the start-up block *)

Record HealthResponse : Type := {
  status : string;
  health_timestamp : string;
  health_gemini_configured : bool
}.

(** [health_check]; [now] is the reading of the clock.  Nothing in the
    body can raise, so the handler of the [try] is never entered. *)
Definition health_check (environ : environment) (now : string) : result HealthResponse :=
  let gemini_configured := gemini_configured environ in
  mret {| status := "healthy";
          health_timestamp := now;
          health_gemini_configured := gemini_configured |}.


(** A gateway that answers stage 1 with the worked example and every
    later stage with an empty text. *)
Definition answering_gateway : gateway := fun call =>
  if (stage_index call =? 1)%nat then inr sample_transcript else inr EmptyString.

Definition sample_submission : ContractSubmission :=
  {| contract_name := "Vault";
     contract_language := "Solidity";
     contract_code := "contract Vault {}" |}.

Definition sample_report : AuditResult :=
  {| audit_contract_name := "Vault";
     timestamp := "2024-01-01T00:00:00";
     severity_score := 4;
     vulnerabilities := [sample_vulnerability];
     gas_optimizations := [];
     security_recommendations := ["Add reentrancy guard"; "Increase test coverage"];
     code_quality_score := 85;
     detailed_report := sample_transcript |}.

(** ** Well-formed blocks *)

(** A block in the format the gas stage is told to answer in. *)
Definition optimization_block (n iss loc tech sav : string) : string :=
  text_lines [ "OPTIMIZATION " +:+ n +:+ ": " +:+ iss;
               "Location: " +:+ loc;
               "Technique: " +:+ tech;
               "Savings: " +:+ sav ].

(** Does the text begin with the word, letter case apart? *)
Fixpoint prefix_nocase (w s : str) : bool :=
  match w, s with
  | [], _ => true
  | p :: w', a :: s' => (code (to_lower a) =? code (to_lower p))%N && prefix_nocase w' s'
  | _ :: _, [] => false
  end.

(** Does the word occur in the text, letter case apart? *)
Fixpoint occurs_nocase (w s : str) : bool :=
  prefix_nocase w s ||
  match s with
  | _ :: s' => occurs_nocase w s'
  | [] => false
  end.

(** Does one of the words occur in the text, letter case apart? *)
Definition mentions (words : list string) (s : string) : bool :=
  existsb (fun w => occurs_nocase (list_ascii_of_string w) (list_ascii_of_string s)) words.

(** Does the character occur in the text? *)
Definition has_char (c : ascii) (s : string) : bool :=
  existsb (fun a => (code a =? code c)%N) (list_ascii_of_string s).

(** A field text: not empty, no whitespace at either end. *)
Definition field_text (s : string) : bool :=
  match list_ascii_of_string s, rev (list_ascii_of_string s) with
  | a :: _, b :: _ => negb (is_space a) && negb (is_space b)
  | _, _ => false
  end.


(** ** Rendering findings in the format of the prompts *)

Definition blank_line : string := nl +:+ nl.





Definition render_optimization (b : string * GasOptimization) : string :=
  optimization_block b.1 (issue b.2) (location b.2) (technique b.2) (potential_savings b.2).

Definition render_optimizations (bs : list (string * GasOptimization)) : string :=
  String.concat blank_line (map render_optimization bs).

Definition optimization_words : list string :=
  ["OPTIMIZATION"; "QUALITY"; "EXECUTIVE"].

Definition well_formed_optimization (g : GasOptimization) : bool :=
  field_text (issue g) && negb (has_char ":" (issue g)) &&
  field_text (location g) && negb (has_char ":" (location g)) &&
  field_text (technique g) && negb (has_char ":" (technique g)) &&
  field_text (potential_savings g) &&
  negb (mentions optimization_words (potential_savings g)) &&
  bool_decide (current_cost g = "N/A") &&
  bool_decide (example g = EmptyString).


Definition sample_optimizations : list (string * GasOptimization) :=
  [ ("1", {| issue := "Storage read in loop";
             location := "withdrawAll()";
             current_cost := "N/A";
             potential_savings := "about 2100 gas per iteration";
             technique := "Cache the length in memory";
             example := "" |});
    ("2", {| issue := "Redundant zero check";
             location := "deposit()";
             current_cost := "N/A";
             potential_savings := "3%";
             technique := "Remove the require";
             example := "" |}) ].

(** What may follow a block: nothing, or blank text and then the first
    section word of the closing lookahead. *)
Definition block_end (word : string) (sep rest : str) : Prop :=
  (sep = [] /\ rest = []) \/
  (sep <> [] /\ Forall (fun a => is_space a = true) sep /\
   exists rest', rest = list_ascii_of_string word ++ rest').

(** ** Rendering recommendations in the format of the prompt *)

(** A numbered recommendation as the stage would write it. *)
Definition render_recommendation (b : string * string) : string :=
  b.1 +:+ ". " +:+ b.2.

(** The header line and the numbered recommendations, one per line. *)
Definition render_recommendations (items : list (string * string)) : string :=
  text_lines ("RECOMMENDATIONS:" :: map render_recommendation items).

Definition recommendation_words : list string := ["COMPLIANCE"; "EXECUTIVE"].

(** The recommendations the list format can carry: not empty, no
    whitespace at either end, no digit, no section word. *)
Definition well_formed_recommendation (r : string) : bool :=
  field_text r && negb (has_digit r) && negb (mentions recommendation_words r).

(** The characters of the item lines, each line after a newline. *)
Fixpoint items_body (items : list (string * string)) : str :=
  match items with
  | [] => []
  | b :: items' =>
      newline :: list_ascii_of_string b.1 ++ list_ascii_of_string ". " ++
      list_ascii_of_string b.2 ++ items_body items'
  end.

(** What the item pattern captures on the item lines: each text, with
    the newline that ends its line when another item follows. *)
Fixpoint item_texts (items : list (string * string)) : list str :=
  match items with
  | [] => []
  | b :: items' =>
      (list_ascii_of_string b.2 ++ match items' with [] => [] | _ => [newline] end)
      :: item_texts items'
  end.

(** A lower-case ASCII letter. *)
Definition is_letter (a : ascii) : bool :=
  ((97 <=? code a) && (code a <=? 122))%N.

Definition sample_recommendations : list (string * string) :=
  [ ("1", "Add reentrancy guard"); ("2", "Increase test coverage");
    ("10", "Emit events on transfer.") ].

(** * Properties *)

(** ** The matcher *)

Lemma or_else_Some {R} (x y : option R) (v : R) :
  or_else x y = Some v -> x = Some v \/ (x = None /\ y = Some v).
Proof. destruct x; simpl; intros; [left | right]; auto. Qed.

Lemma lazy_star_sound fl {R} cs (s : str) (k : str -> option R) (x : R) :
  lazy_star fl cs s k = Some x ->
  exists v s', s = v ++ s' /\ Forall (fun a => cset_match fl cs a = true) v /\ k s' = Some x.
Proof.
  induction s as [|a s IH]; simpl; intros H.
  - apply or_else_Some in H as [H | [_ H]]; [|discriminate].
    exists [], []. auto.
  - apply or_else_Some in H as [H | [_ H]].
    + exists [], (a :: s). auto.
    + destruct (cset_match fl cs a) eqn:Ha; [|discriminate].
      destruct (IH H) as (v & s' & -> & Hv & Hk).
      exists (a :: v), s'. auto.
Qed.

Lemma greedy_star_sound fl {R} cs (s : str) (k : str -> option R) (x : R) :
  greedy_star fl cs s k = Some x ->
  exists v s', s = v ++ s' /\ Forall (fun a => cset_match fl cs a = true) v /\ k s' = Some x.
Proof.
  induction s as [|a s IH]; simpl; intros H.
  - exists [], []. auto.
  - destruct (cset_match fl cs a) eqn:Ha.
    + apply or_else_Some in H as [H | [_ H]].
      * destruct (IH H) as (v & s' & -> & Hv & Hk).
        exists (a :: v), s'. auto.
      * exists [], (a :: s). auto.
    + exists [], (a :: s). auto.
Qed.

(** Every answer of the matcher comes from a match of the pattern that
    the continuation accepted. *)
Lemma rmatch_sound fl r : forall R (s : str) (c : caps) (k : str -> caps -> option R) (x : R),
  rmatch fl r s c k = Some x ->
  exists s' c', matches fl r s c s' c' /\ k s' c' = Some x.
Proof.
  induction r as [|cs|cs g|r1 IH1 r2 IH2|r1 IH1 r2 IH2|i r1 IH1|r1 IH1|];
    intros R s c k x H; simpl in *.
  - eauto.
  - destruct s as [|a s]; [discriminate|].
    destruct (cset_match fl cs a) eqn:Ha; [|discriminate]. eauto 8.
  - destruct g.
    + apply greedy_star_sound in H as (v & s' & -> & Hv & Hk). eauto 8.
    + apply lazy_star_sound in H as (v & s' & -> & Hv & Hk). eauto 8.
  - apply IH1 in H as (s1 & c1 & H1 & H).
    apply IH2 in H as (s' & c' & H2 & H). eauto 8.
  - apply or_else_Some in H as [H | [_ H]].
    + apply IH1 in H as (s' & c' & H1 & H). eauto.
    + apply IH2 in H as (s' & c' & H2 & H). eauto.
  - apply IH1 in H as (s' & c' & H1 & H). eauto 8.
  - destruct (rmatch fl r1 s c (fun _ c' => Some c')) as [c'|] eqn:Hl; [|discriminate].
    apply IH1 in Hl as (s1 & c1 & H1 & Hc). injection Hc as ->. eauto 8.
  - destruct (at_end s) eqn:He; [|discriminate]. eauto 8.
Qed.

Lemma match_at_sound fl r (s rest : str) (c : caps) :
  match_at fl r s = Some (rest, c) ->
  matches fl r s (replicate (ngroups r) None) rest c.
Proof.
  unfold match_at. intros H.
  apply rmatch_sound in H as (s' & c' & Hm & Hk). by injection Hk as <- <-.
Qed.

(** A match consumes a prefix of the text. *)
Lemma matches_suffix fl r : forall (s : str) (c : caps) (s' : str) (c' : caps),
  matches fl r s c s' c' -> exists v, s = v ++ s'.
Proof.
  induction r as [|cs|cs g|r1 IH1 r2 IH2|r1 IH1 r2 IH2|i r1 IH1|r1 IH1|];
    intros s c s' c'; simpl.
  - intros [-> _]. by exists [].
  - intros (a & -> & _). by exists [a].
  - intros (v & -> & _). by exists v.
  - intros (s1 & c1 & H1 & H2).
    apply IH1 in H1 as [v1 ->]. apply IH2 in H2 as [v2 ->].
    exists (v1 ++ v2). by rewrite <- app_assoc.
  - intros [H | H]; eauto.
  - intros (c1 & H & _). eauto.
  - intros [-> _]. by exists [].
  - intros (_ & -> & _). by exists [].
Qed.

(** A match keeps the number of groups. *)
Lemma matches_length fl r : forall (s : str) (c : caps) (s' : str) (c' : caps),
  matches fl r s c s' c' -> length c' = length c.
Proof.
  induction r as [|cs|cs g|r1 IH1 r2 IH2|r1 IH1 r2 IH2|i r1 IH1|r1 IH1|];
    intros s c s' c'; simpl.
  - by intros [_ ->].
  - by intros (a & _ & _ & ->).
  - by intros (v & _ & _ & ->).
  - intros (s1 & c1 & H1 & H2).
    apply IH1 in H1. apply IH2 in H2. congruence.
  - intros [H | H]; eauto.
  - intros (c1 & H & ->). rewrite length_insert. eauto.
  - intros [_ [s1 H]]. eauto.
  - by intros (_ & _ & ->).
Qed.

(** A pattern without groups leaves the groups alone. *)
Lemma matches_groupless fl r : forall (s : str) (c : caps) (s' : str) (c' : caps),
  groupless r = true -> matches fl r s c s' c' -> c' = c.
Proof.
  induction r as [|cs|cs g|r1 IH1 r2 IH2|r1 IH1 r2 IH2|i r1 IH1|r1 IH1|];
    intros s c s' c' Hg; simpl in *.
  - by intros [_ ->].
  - by intros (a & _ & _ & ->).
  - by intros (v & _ & _ & ->).
  - apply andb_true_iff in Hg as [Hg1 Hg2].
    intros (s1 & c1 & H1 & H2).
    apply IH1 in H1; [|done]. apply IH2 in H2; [|done]. congruence.
  - apply andb_true_iff in Hg as [Hg1 Hg2]. intros [H | H]; eauto.
  - discriminate.
  - intros [_ [s1 H]]. eauto.
  - by intros (_ & _ & ->).
Qed.

Lemma take_consumed (v s1 : str) :
  take (length (v ++ s1) - length s1) (v ++ s1) = v.
Proof.
  rewrite length_app.
  replace (length v + length s1 - length s1)%nat with (length v) by lia.
  apply take_app_length.
Qed.

(** Walking along a sequence: a head without groups. *)
Lemma matches_seq_groupless fl r1 r2 (s : str) (c : caps) (s' : str) (c' : caps) :
  groupless r1 = true ->
  matches fl (Seq r1 r2) s c s' c' ->
  exists v s1, s = v ++ s1 /\ matches fl r1 (v ++ s1) c s1 c /\
               matches fl r2 s1 c s' c'.
Proof.
  intros Hg (s1 & c1 & H1 & H2).
  pose proof (matches_groupless _ _ _ _ _ _ Hg H1) as ->.
  destruct (matches_suffix _ _ _ _ _ _ H1) as [v ->]. eauto.
Qed.

(** Walking along a sequence: a head that is a group. *)
Lemma matches_seq_group fl i r1 r2 (s : str) (c : caps) (s' : str) (c' : caps) :
  groupless r1 = true ->
  matches fl (Seq (Group i r1) r2) s c s' c' ->
  exists v s1, s = v ++ s1 /\ matches fl r1 (v ++ s1) c s1 c /\
               matches fl r2 s1 (<[pred i := Some v]> c) s' c'.
Proof.
  intros Hg (s1 & c1 & (c0 & H1 & ->) & H2).
  pose proof (matches_groupless _ _ _ _ _ _ Hg H1) as ->.
  destruct (matches_suffix _ _ _ _ _ _ H1) as [v ->].
  rewrite take_consumed in H2. eauto.
Qed.

(** A run of literal characters matches character by character. *)
Lemma matches_lit_chars fl w : forall (v s' : str) (c c' : caps),
  matches fl (lit_chars w) (v ++ s') c s' c' ->
  Forall2 (fun a p => cset_match fl (CLit p) a = true) v w.
Proof.
  assert (forall (s s' : str) (c c' : caps),
    matches fl (lit_chars w) s c s' c' ->
    exists v, s = v ++ s' /\
              Forall2 (fun a p => cset_match fl (CLit p) a = true) v w) as Hgen.
  { induction w as [|p w IH]; intros s s' c c' H.
    - destruct H as [-> _]. exists []. auto.
    - destruct w as [|q w].
      + destruct H as (a & -> & Ha & _). exists [a]. auto.
      + destruct H as (s1 & c1 & (a & -> & Ha & _) & H).
        apply IH in H as (v & -> & Hv). exists (a :: v). auto. }
  intros v s' c c' H.
  apply Hgen in H as (v' & Heq & Hv).
  by apply app_inv_tail in Heq as ->.
Qed.

(** [x+] and [x+?] consume at least one character, all of the class. *)
Lemma matches_plus fl cs g (x s' : str) (c c' : caps) :
  matches fl (plus cs g) (x ++ s') c s' c' ->
  x <> [] /\ Forall (fun b => cset_match fl cs b = true) x.
Proof.
  intros (s1 & c1 & (a & Heq & Ha & _) & (v & -> & Hv & _)).
  change (x ++ s' = (a :: v) ++ s') in Heq.
  apply app_inv_tail in Heq as ->. auto.
Qed.

(** Case-insensitive literal matching is equality after lower-casing. *)
Lemma lit_nocase (v w : str) :
  Forall2 (fun a p => cset_match DOTALL_IGNORECASE (CLit p) a = true) v w ->
  lower v = lower w.
Proof.
  induction 1 as [|a p v w Hap _ IH]; [done|].
  simpl in *. f_equal; [|done].
  apply N.eqb_eq in Hap. unfold code in Hap.
  rewrite <- (ascii_N_embedding (to_lower a)), <- (ascii_N_embedding (to_lower p)).
  by f_equal.
Qed.

(** ** [search] and [findall] report matches of the pattern *)

Lemma re_search_sound fl r (s : str) (c : caps) :
  re_search fl r s = Some c ->
  exists t rest, match_at fl r t = Some (rest, c).
Proof.
  induction s as [|a s IH]; simpl.
  - destruct (match_at fl r []) as [[rest c0]|] eqn:H; [|discriminate].
    intros [= <-]. eauto.
  - destruct (match_at fl r (a :: s)) as [[rest c0]|] eqn:H; [|done].
    intros [= <-]. eauto.
Qed.

Lemma findall_from_sound fl r (s : str) : forall (n : nat) (c : caps),
  c ∈ findall_from fl r n s ->
  exists t rest, match_at fl r t = Some (rest, c).
Proof.
  induction s as [|a s IH]; intros n c; simpl.
  - destruct n; [|by intros ?%elem_of_nil].
    destruct (match_at fl r []) as [[rest c0]|] eqn:H; [|by intros ?%elem_of_nil].
    intros ->%list_elem_of_singleton. eauto.
  - destruct n; [|apply IH].
    destruct (match_at fl r (a :: s)) as [[rest c0]|] eqn:H; [|apply IH].
    intros [-> | Hin]%elem_of_cons; eauto.
Qed.

Lemma re_findall_sound fl r (s : str) (c : caps) :
  c ∈ re_findall fl r s ->
  exists t rest, matches fl r t (replicate (ngroups r) None) rest c.
Proof.
  intros H. apply findall_from_sound in H as (t & rest & H).
  apply match_at_sound in H. eauto.
Qed.

(** ** The groups of the program's patterns *)

Ltac walk H :=
  repeat first
    [ apply matches_seq_group in H as (? & ? & ? & ? & H); [|reflexivity]
    | apply matches_seq_groupless in H as (? & ? & ? & ? & H); [|reflexivity] ];
  destruct H as [_ ->].

(** A match of the vulnerability pattern sets its four groups, the second
    to one of the four severity words up to letter case. *)
Lemma vuln_shape (t rest : str) (c : caps) :
  matches DOTALL_IGNORECASE vuln_pattern t (replicate (ngroups vuln_pattern) None) rest c ->
  exists ty sev de fx : str,
    c = [Some ty; Some sev; Some de; Some fx] /\
    (lower sev = list_ascii_of_string "critical" \/
     lower sev = list_ascii_of_string "high" \/
     lower sev = list_ascii_of_string "medium" \/
     lower sev = list_ascii_of_string "low").
Proof.
  intros H. unfold vuln_pattern, seqs in H. cbn [foldr] in H.
  change (replicate _ _) with [@None str; None; None; None] in H.
  walk H.
  match goal with
  | Hs : matches _ (alts _ _) (?sev ++ _) _ _ _ |- _ =>
      eexists _, sev, _, _; split; [reflexivity|];
      cbn [alts matches] in Hs;
      destruct Hs as [Hs | [Hs | [Hs | Hs]]];
      apply matches_lit_chars, lit_nocase in Hs; auto
  end.
Qed.

Lemma opt_shape (t rest : str) (c : caps) :
  matches DOTALL_IGNORECASE opt_pattern t (replicate (ngroups opt_pattern) None) rest c ->
  exists iss loc tech sav : str, c = [Some iss; Some loc; Some tech; Some sav].
Proof.
  intros H. unfold opt_pattern, seqs in H. cbn [foldr] in H.
  change (replicate _ _) with [@None str; None; None; None] in H.
  walk H. by eexists _, _, _, _.
Qed.

(** A match of the score pattern captures a non-empty run of digits. *)
Lemma score_shape (t rest : str) (c : caps) :
  matches IGNORECASE score_pattern t (replicate (ngroups score_pattern) None) rest c ->
  exists d : str, c = [Some d] /\ d <> [] /\ Forall (fun a => is_digit a = true) d.
Proof.
  intros H. unfold score_pattern, seqs in H. cbn [foldr] in H.
  change (replicate _ _) with [@None str] in H.
  walk H.
  match goal with
  | Hd : matches _ digits (?d ++ _) _ _ _ |- _ =>
      exists d; split; [reflexivity|]; by apply matches_plus in Hd
  end.
Qed.

Lemma rec_shape (t rest : str) (c : caps) :
  matches DOTALL_IGNORECASE rec_pattern t (replicate (ngroups rec_pattern) None) rest c ->
  exists rec_text : str, c = [Some rec_text].
Proof.
  intros H. unfold rec_pattern, seqs in H. cbn [foldr] in H.
  change (replicate _ _) with [@None str] in H.
  walk H. by eexists.
Qed.

Lemma item_shape (t rest : str) (c : caps) :
  matches DOTALL item_pattern t (replicate (ngroups item_pattern) None) rest c ->
  exists item : str, c = [Some item].
Proof.
  intros H. unfold item_pattern, seqs in H. cbn [foldr] in H.
  change (replicate _ _) with [@None str] in H.
  walk H. by eexists.
Qed.

(** ** The string helpers on the captured texts *)

Lemma lstrip_no_space (s : str) :
  Forall (fun a => is_space a = false) s -> lstrip s = s.
Proof. destruct 1 as [|a s Ha _]; simpl; [done|]. by rewrite Ha. Qed.

Lemma strip_no_space (s : str) :
  Forall (fun a => is_space a = false) s -> strip s = s.
Proof.
  intros H. unfold strip, rstrip.
  rewrite (lstrip_no_space (rev s)), rev_involutive.
  - by apply lstrip_no_space.
  - by apply Forall_rev.
Qed.

Lemma to_lower_space (a : ascii) : is_space (to_lower a) = is_space a.
Proof. by destruct a as [[] [] [] [] [] [] [] []]. Qed.

Lemma lower_no_space (s : str) :
  Forall (fun a => is_space a = false) (lower s) ->
  Forall (fun a => is_space a = false) s.
Proof.
  unfold lower. rewrite Forall_map. intros H.
  eapply Forall_impl; [exact H|].
  intros a. simpl. by rewrite to_lower_space.
Qed.

Lemma digit_no_space (a : ascii) : is_digit a = true -> is_space a = false.
Proof. by destruct a as [[] [] [] [] [] [] [] []]. Qed.

Lemma digit_no_sign (a : ascii) :
  is_digit a = true -> (code a =? 43)%N = false /\ (code a =? 45)%N = false.
Proof. by destruct a as [[] [] [] [] [] [] [] []]. Qed.

Lemma digit_value_nonneg (a : ascii) : 0 <= digit_value a.
Proof. unfold digit_value. lia. Qed.

Lemma digits_value_from_nonneg (s : str) : forall acc : Z,
  0 <= acc -> 0 <= digits_value_from acc s.
Proof.
  induction s as [|a s IH]; intros acc Hacc; simpl; [done|].
  apply IH. pose proof (digit_value_nonneg a). lia.
Qed.

Lemma int_body_digits (s : str) : forall (b : bool) (acc : Z),
  s <> [] -> Forall (fun a => is_digit a = true) s ->
  int_body b acc s = Some (digits_value_from acc s).
Proof.
  induction s as [|a s IH]; intros b acc Hne Hs; [done|].
  apply Forall_cons in Hs as [Ha Hs]. simpl. rewrite Ha.
  destruct s as [|a' s]; [done|]. by apply IH.
Qed.

(** [int] of a non-empty run of digits is its decimal value. *)
Lemma py_int_digits (d : str) :
  d <> [] -> Forall (fun a => is_digit a = true) d ->
  py_int d = inr (digits_value d).
Proof.
  intros Hne Hd. unfold py_int.
  rewrite strip_no_space by (eapply Forall_impl; [done | apply digit_no_space]).
  destruct d as [|a d]; [done|].
  pose proof Hd as [Ha _]%Forall_cons.
  destruct (digit_no_sign a Ha) as [-> ->].
  by rewrite (int_body_digits (a :: d)).
Qed.

(** ** Mapping a fallible function over the matches *)

Lemma mapM_result {A B} (f : A -> result B) (P : B -> Prop) (l : list A) :
  (forall x, x ∈ l -> exists y, f x = inr y /\ P y) ->
  exists ys, mapM f l = inr ys /\ Forall P ys /\ length ys = length l.
Proof.
  induction l as [|x l IH]; intros H; simpl.
  - exists []. auto.
  - destruct (H x) as (y & Hy & HP); [by left|].
    destruct IH as (ys & Hys & HPs & Hlen); [intros ? ?; apply H; by right|].
    exists (y :: ys). rewrite Hy, Hys. simpl. auto.
Qed.

(** ** The parser, step by step *)

Lemma known_severity_of_capture (sev : str) :
  lower sev = list_ascii_of_string "critical" \/
  lower sev = list_ascii_of_string "high" \/
  lower sev = list_ascii_of_string "medium" \/
  lower sev = list_ascii_of_string "low" ->
  strip sev = sev /\ known_severity (string_of_list_ascii sev).
Proof.
  intros H. split.
  - apply strip_no_space, lower_no_space.
    destruct H as [-> | [-> | [-> | ->]]]; repeat constructor.
  - unfold known_severity, same_nocase, severity_words.
    setoid_rewrite list_ascii_of_string_of_list_ascii.
    destruct H as [-> | [-> | [-> | ->]]];
      [exists "Critical" | exists "High" | exists "Medium" | exists "Low"];
      (split; [set_solver | reflexivity]).
Qed.

Lemma vulnerability_of_match (t rest : str) (c : caps) :
  matches DOTALL_IGNORECASE vuln_pattern t (replicate (ngroups vuln_pattern) None) rest c ->
  exists v, vulnerability_of c = inr v /\
            (lines v = "Multiple" /\ exploit_scenario v = "See description" /\
             known_severity (severity v)).
Proof.
  intros H. apply vuln_shape in H as (ty & sev & de & fx & -> & Hsev).
  apply known_severity_of_capture in Hsev as [Hstrip Hknown].
  eexists. split; [reflexivity|]. cbn. by rewrite Hstrip.
Qed.

Lemma gas_optimization_of_match (t rest : str) (c : caps) :
  matches DOTALL_IGNORECASE opt_pattern t (replicate (ngroups opt_pattern) None) rest c ->
  exists g, gas_optimization_of c = inr g /\
            (current_cost g = "N/A" /\ example g = "").
Proof.
  intros H. apply opt_shape in H as (iss & loc & tech & sav & ->).
  eexists. split; [reflexivity|]. by cbn.
Qed.

Lemma vulnerabilities_ok (text : str) :
  exists vs, mapM vulnerability_of (re_findall DOTALL_IGNORECASE vuln_pattern text) = inr vs /\
    Forall (fun v => lines v = "Multiple" /\ exploit_scenario v = "See description" /\
                     known_severity (severity v)) vs /\
    length vs = length (re_findall DOTALL_IGNORECASE vuln_pattern text).
Proof.
  apply mapM_result. intros c Hc.
  apply re_findall_sound in Hc as (t & rest & Hc).
  by eapply vulnerability_of_match.
Qed.

Lemma gas_optimizations_ok (text : str) :
  exists gs, mapM gas_optimization_of (re_findall DOTALL_IGNORECASE opt_pattern text) = inr gs /\
    Forall (fun g => current_cost g = "N/A" /\ example g = "") gs /\
    length gs = length (re_findall DOTALL_IGNORECASE opt_pattern text).
Proof.
  apply mapM_result. intros c Hc.
  apply re_findall_sound in Hc as (t & rest & Hc).
  by eapply gas_optimization_of_match.
Qed.

Lemma quality_score_ok (text : str) :
  exists q,
    match re_search IGNORECASE score_pattern text with
    | Some score_match => t ← group score_match 1; py_int t
    | None => mret 70
    end = inr q /\ 0 <= q /\ quality_score_spec text q.
Proof.
  unfold quality_score_spec.
  destruct (re_search IGNORECASE score_pattern text) as [m|] eqn:Hs.
  - apply re_search_sound in Hs as (t & rest & Hm).
    apply match_at_sound, score_shape in Hm as (d & -> & Hne & Hd).
    exists (digits_value d). cbn. rewrite (py_int_digits d) by done.
    split; [done|]. split; [by apply digits_value_from_nonneg|]. eauto.
  - exists 70. by cbn.
Qed.

Lemma recommendations_ok (text : str) :
  exists recs,
    match re_search DOTALL_IGNORECASE rec_pattern text with
    | Some rec_match =>
        rec_text ← group rec_match 1;
        recs ← mapM (fun m => group m 1) (re_findall DOTALL item_pattern rec_text);
        mret (map (fun r => string_of_list_ascii (strip r))
                (filter (fun r => strip r <> []) recs))
    | None => mret []
    end = inr recs /\
    (re_search DOTALL_IGNORECASE rec_pattern text = None -> recs = []).
Proof.
  destruct (re_search DOTALL_IGNORECASE rec_pattern text) as [m|] eqn:Hs.
  - apply re_search_sound in Hs as (t & rest & Hm).
    apply match_at_sound, rec_shape in Hm as (rec_text & ->). cbn -[item_pattern].
    destruct (mapM_result (fun m => group m 1) (fun _ => True)
                (re_findall DOTALL item_pattern rec_text)) as (items & -> & _).
    { intros c Hc. apply re_findall_sound in Hc as (t' & rest' & Hc).
      apply item_shape in Hc as (item & ->). by exists item. }
    cbn. eexists. split; [reflexivity|]. intros [=].
  - exists []. by cbn.
Qed.

(** The parser returns for every transcript; its five results are the
    results of the five steps. *)
Lemma parse_crew_output_ok (result_text : string) :
  let text := list_ascii_of_string result_text in
  exists vs gs recs q,
    parse_crew_output result_text =
      inr (vs, gs, recs, q,
           severity_formula (critical_count vs) (high_count vs) (Z.of_nat (length vs))) /\
    (Forall (fun v => lines v = "Multiple" /\ exploit_scenario v = "See description" /\
                      known_severity (severity v)) vs /\
     length vs = length (re_findall DOTALL_IGNORECASE vuln_pattern text)) /\
    (Forall (fun g => current_cost g = "N/A" /\ example g = "") gs /\
     length gs = length (re_findall DOTALL_IGNORECASE opt_pattern text)) /\
    (re_search DOTALL_IGNORECASE rec_pattern text = None -> recs = []) /\
    0 <= q /\ quality_score_spec text q.
Proof.
  intros text. unfold parse_crew_output. fold text.
  destruct (vulnerabilities_ok text) as (vs & -> & Hvs).
  destruct (gas_optimizations_ok text) as (gs & -> & Hgs).
  destruct (quality_score_ok text) as (q & Hq & Hq0 & Hqs).
  destruct (recommendations_ok text) as (recs & Hrecs & Hnone).
  exists vs, gs, recs, q. cbn [mbind result_bind].
  rewrite Hq. cbn [mbind result_bind]. rewrite Hrecs. auto 10.
Qed.

(** ** The parser: results *)

(** C1. On the transcript of the worked example the parser returns one
    vulnerability (Reentrancy, Critical, with the description and the fix
    of the block), no gas optimization, the two numbered recommendations,
    quality score 85 and severity score 4. *)
Theorem parse_sample_transcript :
  parse_crew_output sample_transcript =
    inr ([sample_vulnerability], [],
         ["Add reentrancy guard"; "Increase test coverage"], 85, 4).
Proof. vm_compute. reflexivity. Qed.

(** C6. The empty transcript gives no vulnerability, no gas optimization,
    no recommendation, quality score 70 and severity score 0. *)
Theorem parse_empty_transcript :
  parse_crew_output "" = inr ([], [], [], 70, 0).
Proof. vm_compute. reflexivity. Qed.


Lemma count_if_nonneg {A} (p : A -> bool) (vs : list A) : 0 <= count_if p vs.
Proof. unfold count_if. lia. Qed.









(** C10. For every transcript, every vulnerability record has lines
    "Multiple" and exploit scenario "See description", and every gas
    optimization record has current cost "N/A" and an empty example. *)
Theorem constant_fields (text : string) :
  exists o, parse_crew_output text = inr o /\
    Forall (fun v => lines v = "Multiple" /\ exploit_scenario v = "See description")
      (out_vulnerabilities o) /\
    Forall (fun g => current_cost g = "N/A" /\ example g = "")
      (out_gas_optimizations o).
Proof.
  destruct (parse_crew_output_ok text)
    as (vs & gs & recs & q & -> & [Hvs _] & [Hgs _] & _).
  eexists. split; [reflexivity|]. cbn. split; [|done].
  eapply Forall_impl; [exact Hvs|]. by intros v (? & ? & _).
Qed.

(** ** The credential *)

Lemma get_llm_ok (environ : environment) :
  get_llm environ = inr {| model := "gemini/gemini-2.0-flash";
                           api_key := "GEMINI_API_KEY";
                           temperature := (3 # 10)%Q |}.
Proof. reflexivity. Qed.

(** C5. Whatever the environment holds, [get_llm] returns a handle whose
    key is the literal text "GEMINI_API_KEY"; it does so in the empty
    environment too, which [gemini_configured] reports as not configured.
    The guard that raises the configuration error is never taken. *)
Theorem get_llm_ignores_environment :
  (forall environ : environment,
     get_llm environ = inr {| model := "gemini/gemini-2.0-flash";
                              api_key := "GEMINI_API_KEY";
                              temperature := (3 # 10)%Q |}) /\
  gemini_configured ∅ = false.
Proof. split; [apply get_llm_ok | reflexivity]. Qed.

(** ** The stage prompts *)

Lemma append_assoc (a b c : string) : (a +:+ b) +:+ c = a +:+ (b +:+ c).
Proof.
  induction a as [|x a IH]; [reflexivity|].
  change (String x ((a +:+ b) +:+ c) = String x (a +:+ (b +:+ c))).
  by rewrite IH.
Qed.

Lemma text_lines_split (l1 : list string) (x : string) (l2 : list string) :
  l1 <> [] -> l2 <> [] ->
  text_lines (l1 ++ x :: l2) = (text_lines l1 +:+ nl) +:+ x +:+ (nl +:+ text_lines l2).
Proof.
  intros H1 H2. unfold text_lines.
  induction l1 as [|a l1 IH]; [done|].
  destruct l1 as [|b l1].
  - destruct l2 as [|c l2]; [done|]. cbn [app String.concat].
    by rewrite append_assoc.
  - change (String.concat nl ((a :: b :: l1) ++ x :: l2))
      with (a +:+ nl +:+ String.concat nl ((b :: l1) ++ x :: l2)).
    rewrite IH by done.
    change (String.concat nl (a :: b :: l1))
      with (a +:+ nl +:+ String.concat nl (b :: l1)).
    by rewrite !append_assoc.
Qed.

Lemma slice_to_length (n : nat) : forall s : string,
  (String.length (slice_to n s) <= n)%nat.
Proof.
  induction n as [|n IH]; intros [|a s]; simpl; try lia.
  specialize (IH s). lia.
Qed.

Lemma slice_to_prefix (n : nat) : forall s : string,
  exists rest, s = slice_to n s +:+ rest.
Proof.
  induction n as [|n IH]; intros [|a s]; simpl; eauto.
  destruct (IH s) as [rest Hrest]. exists rest.
  change (String a s = String a (slice_to n s +:+ rest)). by rewrite <- Hrest.
Qed.

(** C7. For every language there are fixed texts around the excerpt such
    that, for every source code, the prompts of the four stages are: the
    excerpt [code[:2000]] between the fixed texts for the first three
    stages, and a fixed text for the fourth.  The excerpt is a prefix of
    the code of at most 2000 characters, and two source codes with the
    same first 2000 characters get the same prompts. *)
Theorem stage_prompts_embed_prefix (environ : environment) (lang : string) :
  exists pre1 post1 pre2 post2 pre3 post3 : string,
    (forall code,
       stage_prompts environ code lang =
         inr [ pre1 +:+ slice_to 2000 code +:+ post1;
               pre2 +:+ slice_to 2000 code +:+ post2;
               pre3 +:+ slice_to 2000 code +:+ post3;
               report_description ] /\
       (String.length (slice_to 2000 code) <= 2000)%nat /\
       (exists rest, code = slice_to 2000 code +:+ rest)) /\
    (forall code code',
       slice_to 2000 code = slice_to 2000 code' ->
       stage_prompts environ code lang = stage_prompts environ code' lang).
Proof.
  do 6 eexists. split.
  - intros code. split; [|split; [apply slice_to_length | apply slice_to_prefix]].
    unfold stage_prompts, create_audit_crew. rewrite get_llm_ok.
    cbn [mbind result_bind mret result_ret map tasks task_description].
    unfold vulnerability_description, gas_optimization_description,
      code_quality_description.
    repeat match goal with
    | |- context [text_lines (?a :: ?b :: ?c :: ?d :: slice_to 2000 code :: ?l)] =>
        change (text_lines (a :: b :: c :: d :: slice_to 2000 code :: l))
          with (text_lines ([a; b; c; d] ++ slice_to 2000 code :: l));
        rewrite (text_lines_split [a; b; c; d] (slice_to 2000 code) l) by done
    end.
    reflexivity.
  - intros code code' H.
    unfold stage_prompts, create_audit_crew. rewrite get_llm_ok.
    cbn [mbind result_bind mret result_ret map tasks task_description].
    unfold vulnerability_description, gas_optimization_description,
      code_quality_description.
    by rewrite H.
Qed.

Lemma stage_prompts_embed_prefix_witness :
  stage_prompts ∅ (filler 2000 +:+ "contract A {}") "Solidity" =
  stage_prompts ∅ (filler 2000 +:+ "contract B {}") "Solidity".
Proof.
  destruct (stage_prompts_embed_prefix ∅ "Solidity")
    as (pre1 & post1 & pre2 & post2 & pre3 & post3 & _ & Hsame).
  apply Hsame. vm_compute. reflexivity.
Defined.

(** ** The request handler *)

(** C9. When the gateway answers the call of stage 1 and fails on the
    call of stage 2, the handler makes exactly these two calls, none for
    stages 3 and 4, and returns no report but the failure
    "Audit failed: " followed by the text of the gateway's error. *)
Theorem stage2_failure_aborts (environ : environment) (generate : gateway)
    (now : string) (submission : ContractSubmission) (stage1_text : string) (e : exn) :
  let code := contract_code submission in
  let lang := contract_language submission in
  generate (stage1_call code lang) = inr stage1_text ->
  generate (stage2_call code lang stage1_text) = inl e ->
  audit_contract environ generate now submission =
    ([stage1_call code lang; stage2_call code lang stage1_text],
     inl (HTTPException 500 ("Audit failed: " +:+ exn_str e))).
Proof.
  intros code lang H1 H2.
  unfold audit_contract, create_audit_crew. fold code lang.
  rewrite get_llm_ok. cbn [mbind result_bind mret result_ret].
  unfold kickoff.
  cbn [process tasks run_stages task_description agent llm temperature
       vulnerability_scanner gas_optimizer].
  change (generate (stage1_call code lang)) with
    (generate {| stage_index := 1;
                 prompt := vulnerability_description code lang;
                 context := [];
                 call_temperature := (3 # 10)%Q |}) in H1.
  rewrite H1. cbn [app].
  change (generate (stage2_call code lang stage1_text)) with
    (generate {| stage_index := 2;
                 prompt := gas_optimization_description code lang;
                 context := [stage1_text];
                 call_temperature := (3 # 10)%Q |}) in H2.
  rewrite H2. reflexivity.
Qed.

Lemma stage2_failure_aborts_witness :
  let submission := {| contract_name := "Vault";
                       contract_language := "Solidity";
                       contract_code := "contract Vault {}" |} in
  audit_contract ∅ failing_gateway "2024-01-01T00:00:00" submission =
    ([stage1_call "contract Vault {}" "Solidity";
      stage2_call "contract Vault {}" "Solidity" sample_transcript],
     inl (HTTPException 500 "Audit failed: backend unavailable")).
Proof.
  intros submission.
  apply (stage2_failure_aborts ∅ failing_gateway "2024-01-01T00:00:00" submission
           sample_transcript (GenerationError "backend unavailable"));
    reflexivity.
Defined.

(** * Further properties of the code *)

(** ** The parser assembled from its steps *)

Lemma parse_crew_output_steps (result_text : string)
    (vs : list Vulnerability) (gs : list GasOptimization) (recs : list string) (q : Z) :
  let text := list_ascii_of_string result_text in
  mapM vulnerability_of (re_findall DOTALL_IGNORECASE vuln_pattern text) = inr vs ->
  mapM gas_optimization_of (re_findall DOTALL_IGNORECASE opt_pattern text) = inr gs ->
  quality_score_of text = inr q ->
  recommendations_of text = inr recs ->
  parse_crew_output result_text =
    inr (vs, gs, recs, q,
         severity_formula (critical_count vs) (high_count vs) (Z.of_nat (length vs))).
Proof.
  intros text Hv Hg Hq Hr. unfold parse_crew_output. fold text.
  rewrite Hv, Hg. cbn [mbind result_bind].
  unfold quality_score_of in Hq. rewrite Hq. cbn [mbind result_bind].
  unfold recommendations_of in Hr. rewrite Hr. reflexivity.
Qed.

(** ** Stripped texts *)

Lemma lstrip_starts_clean (s : str) : starts_clean (lstrip s).
Proof.
  induction s as [|a s IH]; simpl; [done|].
  destruct (is_space a) eqn:Ha; [done|]. by simpl.
Qed.

Lemma lstrip_suffix (s : str) : exists p, s = p ++ lstrip s.
Proof.
  induction s as [|a s [p IH]]; simpl; [by exists []|].
  destruct (is_space a).
  - exists (a :: p). simpl. by rewrite <- IH.
  - by exists [].
Qed.

Lemma starts_clean_rev_suffix (p u : str) :
  starts_clean (rev (p ++ u)) -> starts_clean (rev u).
Proof.
  rewrite rev_app_distr. destruct (rev u) as [|a w]; simpl; auto.
Qed.

Lemma strip_trimmed (s : str) :
  starts_clean (strip s) /\ starts_clean (rev (strip s)).
Proof.
  unfold strip. split; [apply lstrip_starts_clean|].
  destruct (lstrip_suffix (rstrip s)) as [p Hp].
  apply (starts_clean_rev_suffix p). rewrite <- Hp.
  unfold rstrip. rewrite rev_involutive. apply lstrip_starts_clean.
Qed.

Lemma stripped_string_trimmed (s : str) : trimmed (string_of_list_ascii (strip s)).
Proof.
  unfold trimmed. rewrite list_ascii_of_string_of_list_ascii. apply strip_trimmed.
Qed.

Lemma vulnerability_of_trimmed (t rest : str) (c : caps) :
  matches DOTALL_IGNORECASE vuln_pattern t (replicate (ngroups vuln_pattern) None) rest c ->
  exists v, vulnerability_of c = inr v /\
            (trimmed (type v) /\ trimmed (severity v) /\
             trimmed (description v) /\ trimmed (recommendation v)).
Proof.
  intros H. apply vuln_shape in H as (ty & sev & de & fx & -> & _).
  eexists. split; [reflexivity|]. cbn.
  repeat split; apply stripped_string_trimmed.
Qed.

Lemma gas_optimization_of_trimmed (t rest : str) (c : caps) :
  matches DOTALL_IGNORECASE opt_pattern t (replicate (ngroups opt_pattern) None) rest c ->
  exists g, gas_optimization_of c = inr g /\
            (trimmed (issue g) /\ trimmed (location g) /\
             trimmed (technique g) /\ trimmed (potential_savings g)).
Proof.
  intros H. apply opt_shape in H as (iss & loc & tech & sav & ->).
  eexists. split; [reflexivity|]. cbn.
  repeat split; apply stripped_string_trimmed.
Qed.

Lemma quality_score_of_ok (text : str) : exists q, quality_score_of text = inr q.
Proof. destruct (quality_score_ok text) as (q & Hq & _). by exists q. Qed.

Lemma string_of_list_ascii_nonempty (s : str) :
  s <> [] -> string_of_list_ascii s <> EmptyString.
Proof. by destruct s. Qed.

(** The recommendation step never fails, and what it keeps is stripped
    and not empty. *)
Lemma recommendations_of_ok (text : str) :
  exists recs, recommendations_of text = inr recs /\
               Forall (fun r => trimmed r /\ r <> EmptyString) recs.
Proof.
  unfold recommendations_of.
  destruct (re_search DOTALL_IGNORECASE rec_pattern text) as [m|] eqn:Hs.
  - apply re_search_sound in Hs as (t & rest & Hm).
    apply match_at_sound, rec_shape in Hm as (rec_text & ->). cbn -[item_pattern].
    destruct (mapM_result (fun m => group m 1) (fun _ => True)
                (re_findall DOTALL item_pattern rec_text)) as (items & -> & _).
    { intros c Hc. apply re_findall_sound in Hc as (t' & rest' & Hc).
      apply item_shape in Hc as (item & ->). by exists item. }
    cbn. eexists. split; [reflexivity|].
    apply Forall_map, Forall_forall. intros r [Hr _]%list_elem_of_filter.
    split; [apply stripped_string_trimmed | by apply string_of_list_ascii_nonempty].
  - exists []. by split.
Qed.

(** X1. Every text field the parser fills from the transcript (type,
    severity, description and recommendation of a vulnerability; issue,
    location, technique and potential savings of a gas optimization)
    neither begins nor ends with whitespace. *)
Theorem extracted_fields_trimmed (text : string) :
  exists o, parse_crew_output text = inr o /\
    Forall (fun v => trimmed (type v) /\ trimmed (severity v) /\
                     trimmed (description v) /\ trimmed (recommendation v))
      (out_vulnerabilities o) /\
    Forall (fun g => trimmed (issue g) /\ trimmed (location g) /\
                     trimmed (technique g) /\ trimmed (potential_savings g))
      (out_gas_optimizations o).
Proof.
  set (t := list_ascii_of_string text).
  destruct (mapM_result vulnerability_of
              (fun v => trimmed (type v) /\ trimmed (severity v) /\
                        trimmed (description v) /\ trimmed (recommendation v))
              (re_findall DOTALL_IGNORECASE vuln_pattern t)) as (vs & Hv & Hvs & _).
  { intros c Hc. apply re_findall_sound in Hc as (t' & rest & Hc).
    by eapply vulnerability_of_trimmed. }
  destruct (mapM_result gas_optimization_of
              (fun g => trimmed (issue g) /\ trimmed (location g) /\
                        trimmed (technique g) /\ trimmed (potential_savings g))
              (re_findall DOTALL_IGNORECASE opt_pattern t)) as (gs & Hg & Hgs & _).
  { intros c Hc. apply re_findall_sound in Hc as (t' & rest & Hc).
    by eapply gas_optimization_of_trimmed. }
  destruct (quality_score_of_ok t) as (q & Hq).
  destruct (recommendations_of_ok t) as (recs & Hr & _).
  eexists. split; [by apply parse_crew_output_steps|]. by cbn.
Qed.

(** X2. Every recommendation the parser returns is a non-empty text that
    neither begins nor ends with whitespace. *)
Theorem recommendations_trimmed_nonempty (text : string) :
  exists o, parse_crew_output text = inr o /\
    Forall (fun r => trimmed r /\ r <> EmptyString) (out_recommendations o).
Proof.
  set (t := list_ascii_of_string text).
  destruct (vulnerabilities_ok t) as (vs & Hv & _).
  destruct (gas_optimizations_ok t) as (gs & Hg & _).
  destruct (quality_score_of_ok t) as (q & Hq).
  destruct (recommendations_of_ok t) as (recs & Hr & Hrecs).
  eexists. split; [by apply parse_crew_output_steps|]. by cbn.
Qed.

(** ** The severity score by class of finding *)

Lemma count_if_cons {A} (p : A -> bool) (v : A) (vs : list A) :
  count_if p (v :: vs) = (if p v then 1 else 0) + count_if p vs.
Proof.
  unfold count_if. rewrite filter_cons.
  destruct (p v); case_decide; try done; cbn [length]; lia.
Qed.

(** A finding with a known severity falls into exactly one of the four
    classes the counts distinguish. *)
Lemma known_severity_class (v : Vulnerability) :
  known_severity (severity v) ->
  (if severity_is "critical" v then 1 else 0) + (if severity_is "high" v then 1 else 0) +
  (if severity_is "medium" v then 1 else 0) + (if severity_is "low" v then 1 else 0) = 1.
Proof.
  intros (w & Hw & Hsame). unfold severity_words in Hw.
  unfold same_nocase in Hsame. unfold severity_is.
  apply elem_of_cons in Hw as [-> | Hw]; [by rewrite Hsame|].
  apply elem_of_cons in Hw as [-> | Hw]; [by rewrite Hsame|].
  apply elem_of_cons in Hw as [-> | Hw]; [by rewrite Hsame|].
  apply elem_of_cons in Hw as [-> | Hw]; [by rewrite Hsame|].
  by apply elem_of_nil in Hw.
Qed.

Lemma severity_classes_partition (vs : list Vulnerability) :
  Forall (fun v => known_severity (severity v)) vs ->
  Z.of_nat (length vs) =
    critical_count vs + high_count vs + medium_count vs + low_count vs.
Proof.
  unfold critical_count, high_count, medium_count, low_count.
  induction 1 as [|v vs Hv _ IH]; [reflexivity|].
  rewrite !count_if_cons. apply known_severity_class in Hv.
  cbn [length]. lia.
Qed.

Lemma parse_known_severities (text : string) :
  exists vs gs recs q,
    parse_crew_output text =
      inr (vs, gs, recs, q,
           severity_formula (critical_count vs) (high_count vs) (Z.of_nat (length vs))) /\
    Forall (fun v => known_severity (severity v)) vs.
Proof.
  destruct (parse_crew_output_ok text) as (vs & gs & recs & q & E & [Hvs _] & _).
  exists vs, gs, recs, q. split; [done|].
  eapply Forall_impl; [exact Hvs|]. by intros v (_ & _ & ?).
Qed.


(** X4. The severity score is 0 exactly when no vulnerability was
    extracted; with n vulnerabilities it lies between min(10, n) and
    min(10, 4n). *)
Theorem severity_score_bounds (text : string) :
  exists o, parse_crew_output text = inr o /\
    let n := Z.of_nat (length (out_vulnerabilities o)) in
    (out_severity_score o = 0 <-> out_vulnerabilities o = []) /\
    Z.min 10 n <= out_severity_score o <= Z.min 10 (4 * n).
Proof.
  destruct (parse_known_severities text) as (vs & gs & recs & q & -> & Hvs).
  eexists. split; [reflexivity|]. cbn.
  pose proof (severity_classes_partition vs Hvs) as Hn.
  pose proof (count_if_nonneg (severity_is "critical") vs).
  pose proof (count_if_nonneg (severity_is "high") vs).
  pose proof (count_if_nonneg (severity_is "medium") vs).
  pose proof (count_if_nonneg (severity_is "low") vs).
  unfold severity_formula, critical_count, high_count, medium_count, low_count in *.
  split; [|lia]. split.
  - intros Hzero. apply nil_length_inv. lia.
  - intros ->. reflexivity.
Qed.

(** ** Transcripts without digits *)

Lemma re_search_suffix fl r (s : str) (c : caps) :
  re_search fl r s = Some c ->
  exists p t rest, s = p ++ t /\ match_at fl r t = Some (rest, c).
Proof.
  induction s as [|a s IH]; simpl.
  - destruct (match_at fl r []) as [[rest c0]|] eqn:H; [|discriminate].
    intros [= <-]. by exists [], [], rest.
  - destruct (match_at fl r (a :: s)) as [[rest c0]|] eqn:H.
    + intros [= <-]. by exists [], (a :: s), rest.
    + intros (p & t & rest & -> & Hm)%IH. by exists (a :: p), t, rest.
Qed.

Lemma findall_from_suffix fl r (s : str) : forall (n : nat) (c : caps),
  c ∈ findall_from fl r n s ->
  exists p t rest, s = p ++ t /\ match_at fl r t = Some (rest, c).
Proof.
  assert (forall a (s : str) c,
    (exists p t rest, s = p ++ t /\ match_at fl r t = Some (rest, c)) ->
    exists p t rest, a :: s = p ++ t /\ match_at fl r t = Some (rest, c)) as Hstep.
  { intros a s0 c (p & t & rest & -> & Hm). by exists (a :: p), t, rest. }
  induction s as [|a s IH]; intros n c; simpl.
  - destruct n; [|by intros ?%elem_of_nil].
    destruct (match_at fl r []) as [[rest c0]|] eqn:H; [|by intros ?%elem_of_nil].
    intros ->%list_elem_of_singleton. by exists [], [], rest.
  - destruct n; [|intros Hc; by apply Hstep, (IH n)].
    destruct (match_at fl r (a :: s)) as [[rest c0]|] eqn:H.
    + intros [-> | Hin]%elem_of_cons; [by exists [], (a :: s), rest|].
      by eapply Hstep, IH.
    + intros Hc. by apply Hstep, (IH 0%nat).
Qed.

Ltac find_digit Hnd :=
  match goal with
  | Hd : matches _ digits (?d ++ _) _ _ _ |- _ =>
      apply matches_plus in Hd as [Hne Hall];
      destruct d as [|a d]; [done|];
      apply Forall_cons in Hall as [Ha _]; cbn in Ha;
      subst; rewrite ?Forall_app, ?Forall_cons in Hnd;
      destruct_and!; congruence
  end.

Lemma vuln_needs_digit (t rest : str) (c : caps) :
  matches DOTALL_IGNORECASE vuln_pattern t (replicate (ngroups vuln_pattern) None) rest c ->
  Forall (fun a => is_digit a = false) t -> False.
Proof.
  intros H Hnd. unfold vuln_pattern, seqs in H. cbn [foldr] in H.
  walk H. find_digit Hnd.
Qed.

Lemma opt_needs_digit (t rest : str) (c : caps) :
  matches DOTALL_IGNORECASE opt_pattern t (replicate (ngroups opt_pattern) None) rest c ->
  Forall (fun a => is_digit a = false) t -> False.
Proof.
  intros H Hnd. unfold opt_pattern, seqs in H. cbn [foldr] in H.
  walk H. find_digit Hnd.
Qed.

Lemma score_needs_digit (t rest : str) (c : caps) :
  matches IGNORECASE score_pattern t (replicate (ngroups score_pattern) None) rest c ->
  Forall (fun a => is_digit a = false) t -> False.
Proof.
  intros H Hnd. unfold score_pattern, seqs in H. cbn [foldr] in H.
  walk H. find_digit Hnd.
Qed.

Lemma item_needs_digit (t rest : str) (c : caps) :
  matches DOTALL item_pattern t (replicate (ngroups item_pattern) None) rest c ->
  Forall (fun a => is_digit a = false) t -> False.
Proof.
  intros H Hnd. unfold item_pattern, seqs in H. cbn [foldr] in H.
  walk H. find_digit Hnd.
Qed.

(** The text a recommendation header captures is a piece of the
    transcript. *)
Lemma rec_shape_piece (t rest : str) (c : caps) :
  matches DOTALL_IGNORECASE rec_pattern t (replicate (ngroups rec_pattern) None) rest c ->
  exists rec_text : str, c = [Some rec_text] /\
    forall P : ascii -> Prop, Forall P t -> Forall P rec_text.
Proof.
  intros H. unfold rec_pattern, seqs in H. cbn [foldr] in H.
  change (replicate _ _) with [@None str] in H.
  walk H.
  match goal with
  | Hs : matches _ any_lazy (?v ++ _) _ _ _ |- _ =>
      exists v; split; [reflexivity|];
      intros P HP; subst; rewrite ?Forall_app in HP; by destruct_and!
  end.
Qed.

Lemma no_match_nil fl r (s : str) :
  (forall c, c ∈ re_findall fl r s -> False) -> re_findall fl r s = [].
Proof. intros H. apply elem_of_nil_inv. intros c Hc. by apply (H c). Qed.

Lemma findall_needs_digit fl r (s : str) :
  (forall t rest c, matches fl r t (replicate (ngroups r) None) rest c ->
                    Forall (fun a => is_digit a = false) t -> False) ->
  Forall (fun a => is_digit a = false) s ->
  re_findall fl r s = [].
Proof.
  intros Hneeds Hnd. apply no_match_nil. intros c Hc.
  apply findall_from_suffix in Hc as (p & t & rest & -> & Hm).
  apply match_at_sound in Hm. apply Forall_app in Hnd as [_ Hnd]. eauto.
Qed.

Lemma search_needs_digit fl r (s : str) :
  (forall t rest c, matches fl r t (replicate (ngroups r) None) rest c ->
                    Forall (fun a => is_digit a = false) t -> False) ->
  Forall (fun a => is_digit a = false) s ->
  re_search fl r s = None.
Proof.
  intros Hneeds Hnd. destruct (re_search fl r s) as [c|] eqn:Hs; [|done].
  apply re_search_suffix in Hs as (p & t & rest & -> & Hm).
  apply match_at_sound in Hm. apply Forall_app in Hnd as [_ Hnd].
  destruct (Hneeds _ _ _ Hm Hnd).
Qed.

Lemma has_digit_false (text : string) :
  has_digit text = false ->
  Forall (fun a => is_digit a = false) (list_ascii_of_string text).
Proof.
  unfold has_digit. generalize (list_ascii_of_string text) as l.
  induction l as [|a l IH]; simpl; [done|].
  intros [Ha Hl]%orb_false_iff. auto.
Qed.

(** X5. A transcript without any decimal digit yields nothing: no
    vulnerability, no gas optimization, no recommendation, quality score
    70 and severity score 0, whatever headers and texts it holds. *)
Theorem parse_without_digits (text : string) :
  has_digit text = false ->
  parse_crew_output text = inr ([], [], [], 70, 0).
Proof.
  intros Hnd%has_digit_false. set (t := list_ascii_of_string text) in *.
  apply (parse_crew_output_steps text [] [] [] 70); fold t.
  - by rewrite (findall_needs_digit _ _ t vuln_needs_digit).
  - by rewrite (findall_needs_digit _ _ t opt_needs_digit).
  - unfold quality_score_of.
    by rewrite (search_needs_digit _ _ t score_needs_digit).
  - unfold recommendations_of.
    destruct (re_search DOTALL_IGNORECASE rec_pattern t) as [m|] eqn:Hs; [|done].
    apply re_search_suffix in Hs as (p & t' & rest & Ht & Hm).
    apply match_at_sound, rec_shape_piece in Hm as (rec_text & -> & Hpiece).
    rewrite Ht in Hnd. apply Forall_app in Hnd as [_ Hnd]. apply Hpiece in Hnd.
    cbn -[item_pattern].
    by rewrite (findall_needs_digit _ _ rec_text item_needs_digit).
Qed.

Lemma parse_without_digits_witness :
  parse_crew_output "RECOMMENDATIONS: - add a guard - write tests" =
    inr ([], [], [], 70, 0).
Proof. apply parse_without_digits. reflexivity. Defined.

(** ** A transcript that opens with the score line *)

Lemma list_ascii_of_string_app (a b : string) :
  list_ascii_of_string (a +:+ b) = list_ascii_of_string a ++ list_ascii_of_string b.
Proof.
  induction a as [|x a IH]; [reflexivity|].
  change (x :: list_ascii_of_string (a +:+ b) =
          x :: (list_ascii_of_string a ++ list_ascii_of_string b)).
  by rewrite IH.
Qed.


(** A run of literals that matches is consumed and nothing else. *)
Lemma rmatch_lit_chars fl {R} (v w s : str) (c : caps) (k : str -> caps -> option R) :
  Forall2 (fun a p => cset_match fl (CLit p) a = true) v w ->
  rmatch fl (lit_chars w) (v ++ s) c k = k s c.
Proof.
  induction 1 as [|a p v w Hap Hvw IH]; [reflexivity|].
  destruct Hvw as [|a' p' v w Hap' Hvw].
  - cbn [lit_chars rmatch app]. by rewrite Hap.
  - change (lit_chars (p :: p' :: w)) with (Seq (Chr (CLit p)) (lit_chars (p' :: w))).
    cbn [rmatch app]. rewrite Hap. apply IH.
Qed.

(** A greedy repetition takes the whole run when what follows is not of
    the class and the continuation accepts there. *)
Lemma greedy_star_run fl {R} cs (d rest : str) (k : str -> option R) (x : R) :
  Forall (fun a => cset_match fl cs a = true) d ->
  match rest with a :: _ => cset_match fl cs a = false | [] => True end ->
  k rest = Some x ->
  greedy_star fl cs (d ++ rest) k = Some x.
Proof.
  intros Hd Hrest Hk. induction Hd as [|a d Ha _ IH].
  - destruct rest as [|b rest]; simpl; [done|]. by rewrite Hrest.
  - simpl. by rewrite Ha, IH.
Qed.

Lemma re_search_here fl r (s rest : str) (c : caps) :
  match_at fl r s = Some (rest, c) -> re_search fl r s = Some c.
Proof. intros H. destruct s; simpl; by rewrite H. Qed.



Lemma all_digits_true (d : string) :
  all_digits d = true ->
  list_ascii_of_string d <> [] /\
  Forall (fun a => is_digit a = true) (list_ascii_of_string d).
Proof.
  unfold all_digits. intros [Hne Hall]%andb_true_iff. split.
  - destruct d; [done|]. discriminate.
  - apply Forall_forall. intros a Ha.
    rewrite forallb_forall in Hall. apply Hall. by apply list_elem_of_In.
Qed.








(** ** The request handler: outcomes *)

Lemma create_audit_crew_ok (environ : environment) (code lang : string) :
  exists crew, create_audit_crew environ code lang = inr crew.
Proof. unfold create_audit_crew. rewrite get_llm_ok. by eexists. Qed.



(** X8. Whenever [audit_contract] returns a report, the report carries
    the submitted contract name and the clock reading, its detailed
    report is the transcript of the crew run, and its five structured
    fields are exactly what the parser yields on that detailed report; in
    particular its severity score lies in [0,10] and its quality score is
    not negative. *)
Theorem audit_report_consistent (environ : environment) (generate : gateway)
    (now : string) (submission : ContractSubmission) (calls : trace) (r : AuditResult) :
  audit_contract environ generate now submission = (calls, inr r) ->
  audit_contract_name r = contract_name submission /\
  timestamp r = now /\
  (exists crew outputs,
     create_audit_crew environ (contract_code submission)
       (contract_language submission) = inr crew /\
     kickoff generate crew = (calls, inr outputs) /\
     detailed_report r = transcript outputs) /\
  parse_crew_output (detailed_report r) =
    inr (vulnerabilities r, gas_optimizations r, security_recommendations r,
         code_quality_score r, severity_score r) /\
  0 <= severity_score r <= 10 /\ 0 <= code_quality_score r.
Proof.
  unfold audit_contract.
  destruct (create_audit_crew_ok environ (contract_code submission)
              (contract_language submission)) as [crew Hcrew]. rewrite Hcrew.
  destruct (kickoff generate crew) as [calls' [cause|outputs]] eqn:Hk; [intros [=]|].
  destruct (parse_crew_output_ok (transcript outputs))
    as (vs & gs & recs & q & E & _ & _ & _ & Hq & _).
  rewrite E. intros [= <- <-]. cbn.
  repeat split; try done.
  - by exists crew, outputs.
  - unfold severity_formula.
    pose proof (count_if_nonneg (severity_is "critical") vs).
    pose proof (count_if_nonneg (severity_is "high") vs).
    unfold critical_count, high_count. lia.
  - unfold severity_formula. lia.
Qed.

Lemma audit_report_consistent_witness :
  audit_contract_name sample_report = contract_name sample_submission /\
  timestamp sample_report = "2024-01-01T00:00:00" /\
  (exists crew outputs,
     create_audit_crew ∅ (contract_code sample_submission)
       (contract_language sample_submission) = inr crew /\
     kickoff answering_gateway crew =
       (fst (audit_contract ∅ answering_gateway "2024-01-01T00:00:00" sample_submission),
        inr outputs) /\
     detailed_report sample_report = transcript outputs) /\
  parse_crew_output (detailed_report sample_report) =
    inr (vulnerabilities sample_report, gas_optimizations sample_report,
         security_recommendations sample_report,
         code_quality_score sample_report, severity_score sample_report) /\
  0 <= severity_score sample_report <= 10 /\ 0 <= code_quality_score sample_report.
Proof.
  apply (audit_report_consistent ∅ answering_gateway "2024-01-01T00:00:00"
           sample_submission).
  vm_compute. reflexivity.
Defined.

(** ** The health endpoint *)

(** X9. [health_check] always answers "healthy" with the clock reading,
    and reports the credential as configured exactly when GEMINI_API_KEY
    is set to a non-empty value: setting it to [v] reports whether [v] is
    non-empty, removing it reports false, and no other variable matters. *)
Theorem health_check_reports_credential (environ : environment) (now : string) :
  (exists r, health_check environ now = inr r /\
     status r = "healthy" /\ health_timestamp r = now /\
     (health_gemini_configured r = true <->
        exists v, environ !! "GEMINI_API_KEY" = Some v /\ v <> EmptyString)) /\
  (forall v, gemini_configured (<["GEMINI_API_KEY" := v]> environ) =
               negb (bool_decide (v = EmptyString))) /\
  gemini_configured (delete "GEMINI_API_KEY" environ) = false /\
  (forall k v, k <> "GEMINI_API_KEY" ->
     gemini_configured (<[k := v]> environ) = gemini_configured environ).
Proof.
  unfold health_check, gemini_configured, getenv. repeat split.
  - eexists. split; [reflexivity|]. cbn. repeat split.
    + destruct (environ !! "GEMINI_API_KEY") as [v|]; [|done].
      intros Hv. exists v. split; [done|].
      intros ->. by rewrite bool_decide_eq_true_2 in Hv.
    + intros (v & -> & Hv). by rewrite bool_decide_eq_false_2.
  - intros v. by rewrite lookup_insert_eq.
  - by rewrite lookup_delete_eq.
  - intros k v Hk. by rewrite lookup_insert_ne.
Qed.

Lemma health_check_reports_credential_witness :
  gemini_configured (<["PORT" := "8080"]> (∅ : environment)) =
  gemini_configured (∅ : environment).
Proof.
  apply (proj2 (proj2 (proj2 (health_check_reports_credential ∅ "")))).
  vm_compute. discriminate.
Defined.

(** ** The size of the stage prompts *)

Lemma length_append (a b : string) :
  String.length (a +:+ b) = (String.length a + String.length b)%nat.
Proof.
  induction a as [|x a IH]; [reflexivity|].
  change (S (String.length (a +:+ b)) = S (String.length a + String.length b)).
  by rewrite IH.
Qed.

Lemma slice_to_length_min (n : nat) : forall s : string,
  String.length (slice_to n s) = Nat.min n (String.length s).
Proof.
  induction n as [|n IH]; intros [|a s]; simpl; try done.
  by rewrite IH.
Qed.

Lemma slice_to_short (n : nat) : forall s : string,
  (String.length s <= n)%nat -> slice_to n s = s.
Proof.
  induction n as [|n IH]; intros [|a s]; simpl; try done; [lia|].
  intros H. rewrite IH; [done|lia].
Qed.

Ltac prompt_length :=
  unfold text_lines; cbn [String.concat];
  rewrite !length_append, slice_to_length_min;
  simpl String.length; lia.

(** X10. The prompts have a computable size: 534, 457 and 401 fixed
    characters for the first three stages plus the length of the language
    name plus min(2000, length of the source code), and 460 characters for
    the fourth.  The language name is embedded whole, whatever its
    length. *)
Theorem stage_prompt_sizes (code lang : string) :
  String.length (vulnerability_description code lang) =
    (534 + String.length lang + Nat.min 2000 (String.length code))%nat /\
  String.length (gas_optimization_description code lang) =
    (457 + String.length lang + Nat.min 2000 (String.length code))%nat /\
  String.length (code_quality_description code lang) =
    (401 + String.length lang + Nat.min 2000 (String.length code))%nat /\
  String.length report_description = 460%nat.
Proof.
  split; [|split; [|split]].
  - unfold vulnerability_description. prompt_length.
  - unfold gas_optimization_description. prompt_length.
  - unfold code_quality_description. prompt_length.
  - reflexivity.
Qed.

(** X11. A source code of at most 2000 characters is embedded whole and
    unchanged: for every language there are fixed texts such that the
    prompts of the first three stages are the code between them. *)
Theorem short_code_embedded_whole (environ : environment) (lang : string) :
  exists pre1 post1 pre2 post2 pre3 post3 : string,
    forall code, (String.length code <= 2000)%nat ->
      stage_prompts environ code lang =
        inr [ pre1 +:+ code +:+ post1;
              pre2 +:+ code +:+ post2;
              pre3 +:+ code +:+ post3;
              report_description ].
Proof.
  do 6 eexists. intros code Hlen.
  unfold stage_prompts, create_audit_crew. rewrite get_llm_ok.
  cbn [mbind result_bind mret result_ret map tasks task_description].
  unfold vulnerability_description, gas_optimization_description,
    code_quality_description.
  rewrite (slice_to_short 2000 code Hlen).
  repeat match goal with
  | |- context [text_lines (?a :: ?b :: ?c :: ?d :: code :: ?l)] =>
      change (text_lines (a :: b :: c :: d :: code :: l))
        with (text_lines ([a; b; c; d] ++ code :: l));
      rewrite (text_lines_split [a; b; c; d] code l) by done
  end.
  reflexivity.
Qed.

Lemma short_code_embedded_whole_witness :
  exists pre1 post1 pre2 post2 pre3 post3 : string,
    stage_prompts ∅ "contract Vault {}" "Solidity" =
      inr [ pre1 +:+ "contract Vault {}" +:+ post1;
            pre2 +:+ "contract Vault {}" +:+ post2;
            pre3 +:+ "contract Vault {}" +:+ post3;
            report_description ].
Proof.
  destruct (short_code_embedded_whole ∅ "Solidity")
    as (pre1 & post1 & pre2 & post2 & pre3 & post3 & H).
  exists pre1, post1, pre2, post2, pre3, post3.
  apply H. vm_compute. lia.
Defined.

(** ** The start-up block *)



(** ** Matching forwards *)

Lemma or_else_l {R} (x y : option R) (v : R) : x = Some v -> or_else x y = Some v.
Proof. by intros ->. Qed.

Lemma or_else_r {R} (x y : option R) : x = None -> or_else x y = y.
Proof. by intros ->. Qed.

(** A pattern that has no match fails, whatever comes after it. *)
Lemma rmatch_none fl r {R} (s : str) (c : caps) (k : str -> caps -> option R) :
  (forall s' c', matches fl r s c s' c' -> False) ->
  rmatch fl r s c k = None.
Proof.
  intros H. destruct (rmatch fl r s c k) as [x|] eqn:Hm; [|done].
  apply rmatch_sound in Hm as (s' & c' & Hm & _). destruct (H _ _ Hm).
Qed.

Lemma rmatch_lit fl {R} (w : string) (v s : str) (c : caps) (k : str -> caps -> option R) :
  Forall2 (fun a p => cset_match fl (CLit p) a = true) v (list_ascii_of_string w) ->
  rmatch fl (lit w) (v ++ s) c k = k s c.
Proof. apply rmatch_lit_chars. Qed.

(** A literal written out matches itself under either flag setting. *)
Lemma lit_self fl (w : str) :
  Forall2 (fun a p => cset_match fl (CLit p) a = true) w w.
Proof.
  induction w as [|a w IH]; constructor; [|done].
  cbn. destruct (ignorecase fl); apply N.eqb_refl.
Qed.

Lemma rmatch_digits fl {R} (d rest : str) (c : caps) (k : str -> caps -> option R) (x : R) :
  d <> [] -> Forall (fun a => is_digit a = true) d ->
  match rest with a :: _ => is_digit a = false | [] => True end ->
  k rest c = Some x ->
  rmatch fl digits (d ++ rest) c k = Some x.
Proof.
  intros Hne Hd Hrest Hk. destruct d as [|a d]; [done|].
  apply Forall_cons in Hd as [Ha Hd].
  cbn [rmatch digits plus app cset_match]. rewrite Ha.
  by apply greedy_star_run.
Qed.

Lemma rmatch_spaces fl {R} (w rest : str) (c : caps) (k : str -> caps -> option R) (x : R) :
  Forall (fun a => is_space a = true) w ->
  match rest with a :: _ => is_space a = false | [] => True end ->
  k rest c = Some x ->
  rmatch fl spaces (w ++ rest) c k = Some x.
Proof. intros Hw Hrest Hk. cbn [rmatch spaces]. by apply greedy_star_run. Qed.

(** A lazy repetition stops at the first place where the continuation
    accepts. *)
Lemma lazy_star_first fl {R} cs (u s : str) (k : str -> option R) (x : R) :
  Forall (fun a => cset_match fl cs a = true) u ->
  (forall u1 u2, u = u1 ++ u2 -> u2 <> [] -> k (u2 ++ s) = None) ->
  k s = Some x ->
  lazy_star fl cs (u ++ s) k = Some x.
Proof.
  intros Hu. induction Hu as [|a u Ha _ IH]; intros Hnone Hk.
  - destruct s; simpl; by rewrite Hk.
  - cbn [app lazy_star]. rewrite or_else_r.
    + rewrite Ha. apply IH; [|done].
      intros u1 u2 -> Hu2. by apply (Hnone (a :: u1) u2).
    + by apply (Hnone [] (a :: u)).
Qed.

(** [(.+?)] under DOTALL captures the shortest non-empty text after
    which the rest of the pattern succeeds. *)
Lemma rmatch_group_lazy {R} i (v s : str) (c : caps)
    (k : str -> caps -> option R) (x : R) :
  v <> [] ->
  (forall v1 v2, v = v1 ++ v2 -> v1 <> [] -> v2 <> [] ->
     k (v2 ++ s) (<[pred i := Some v1]> c) = None) ->
  k s (<[pred i := Some v]> c) = Some x ->
  rmatch DOTALL_IGNORECASE (Group i any_lazy) (v ++ s) c k = Some x.
Proof.
  intros Hne Hnone Hk. destruct v as [|a v]; [done|].
  cbn [rmatch any_lazy plus app cset_match dotall DOTALL_IGNORECASE orb].
  apply lazy_star_first.
  - by apply Forall_forall.
  - intros u1 u2 -> Hu2.
    assert (a :: (u1 ++ u2) ++ s = (a :: u1) ++ (u2 ++ s)) as ->
      by (cbn [app]; by rewrite <- app_assoc).
    rewrite take_consumed. by apply (Hnone (a :: u1) u2).
  - replace (take _ _) with (a :: v); [done|].
    change (a :: v ++ s) with ((a :: v) ++ s). by rewrite take_consumed.
Qed.

(** ** Conditions on field texts *)

Lemma has_char_false (ch : ascii) (s : string) :
  has_char ch s = false -> Forall (fun a => a <> ch) (list_ascii_of_string s).
Proof.
  unfold has_char. generalize (list_ascii_of_string s) as l.
  induction l as [|a l IH]; simpl; [done|].
  intros [Ha Hl]%orb_false_iff. constructor; [|by apply IH].
  intros ->. by rewrite N.eqb_refl in Ha.
Qed.

Lemma field_text_true (s : string) :
  field_text s = true ->
  list_ascii_of_string s <> [] /\
  starts_clean (list_ascii_of_string s) /\
  starts_clean (rev (list_ascii_of_string s)).
Proof.
  unfold field_text.
  destruct (list_ascii_of_string s) as [|a l]; [done|].
  destruct (rev (a :: l)) as [|b l']; [done|].
  intros [Ha%negb_true_iff Hb%negb_true_iff]%andb_true_iff. by simpl.
Qed.

Lemma strip_field (s : str) :
  starts_clean s -> starts_clean (rev s) -> strip s = s.
Proof.
  intros Hs Hr. unfold strip, rstrip.
  assert (forall t : str, starts_clean t -> lstrip t = t) as Hfix.
  { intros [|a t]; simpl; [done|]. by intros ->. }
  by rewrite (Hfix _ Hr), rev_involutive, Hfix.
Qed.

(** The end of a field text is not whitespace, so no non-empty tail of
    it is all whitespace. *)
Lemma tail_not_blank (d1 d2 : str) :
  starts_clean (rev (d1 ++ d2)) -> d2 <> [] ->
  Forall (fun a => is_space a = true) d2 -> False.
Proof.
  intros Hc Hne Hsp. apply starts_clean_rev_suffix in Hc.
  destruct (rev d2) as [|b l] eqn:Hr.
  - apply (f_equal (@rev ascii)) in Hr. rewrite rev_involutive in Hr. done.
  - assert (b ∈ d2) as Hb.
    { apply list_elem_of_In, in_rev. rewrite Hr. by left. }
    rewrite Forall_forall in Hsp. specialize (Hsp _ Hb). simpl in Hc. congruence.
Qed.

Lemma prefix_nocase_lit (w x s : str) :
  Forall2 (fun a p => cset_match DOTALL_IGNORECASE (CLit p) a = true) x w ->
  prefix_nocase w (x ++ s) = true.
Proof.
  induction 1 as [|a p x w Hap _ IH]; [by destruct s|].
  simpl. cbn in Hap. by rewrite Hap, IH.
Qed.

Lemma occurs_nocase_suffix (w p t : str) :
  occurs_nocase w (p ++ t) = false -> prefix_nocase w t = false.
Proof.
  induction p as [|a p IH]; simpl.
  - destruct t; simpl; by intros [? _]%orb_false_iff.
  - intros [_ H]%orb_false_iff. by apply IH.
Qed.

Lemma mentions_false (words : list string) (s : string) :
  mentions words s = false ->
  Forall (fun w => occurs_nocase (list_ascii_of_string w)
                     (list_ascii_of_string s) = false) words.
Proof.
  unfold mentions. induction words as [|w words IH]; simpl; [done|].
  intros [Hw Hws]%orb_false_iff. auto.
Qed.


Lemma lit_colon (b : ascii) :
  cset_match DOTALL_IGNORECASE (CLit ":") b = true -> b = ":"%char.
Proof. destruct b as [[] [] [] [] [] [] [] []]; by intros. Qed.

(** A literal of a sequence matches a prefix of the text. *)
Lemma matches_seq_lit fl (w : string) r (s : str) (c : caps) (s' : str) (c' : caps) :
  matches fl (Seq (lit w) r) s c s' c' ->
  exists x s1, s = x ++ s1 /\
    Forall2 (fun a p => cset_match fl (CLit p) a = true) x (list_ascii_of_string w).
Proof.
  intros (s1 & c1 & H1 & _).
  destruct (matches_suffix _ _ _ _ _ _ H1) as [x ->].
  exists x, s1. split; [done|]. by eapply matches_lit_chars.
Qed.

(** ** Where the rest of a block cannot start early *)


(** After a field text without colons, the line "[key]: " cannot be
    reached from inside the text: the rest of the pattern, which begins
    with optional whitespace and the literal "[key]: ", has no match
    starting at a non-empty tail of the field. *)
Lemma no_key_inside (w : string) (key : str) (r : regex)
    (d1 d2 tail : str) (c : caps) (s' : str) (c' : caps) :
  list_ascii_of_string w = key ++ [":"%char; " "%char] ->
  Forall (fun a => a <> ":"%char) key ->
  d2 <> [] -> starts_clean (rev (d1 ++ d2)) ->
  Forall (fun a => a <> ":"%char) d2 ->
  matches DOTALL_IGNORECASE (Seq spaces (Seq (lit w) r))
    (d2 ++ newline :: key ++ ":"%char :: " "%char :: tail) c s' c' -> False.
Proof.
  intros Hw Hkey Hne Hclean Hd (s1 & c1 & (wv & Heq & Hwv & _) & Hm).
  apply matches_seq_lit in Hm as (x & s2 & -> & Hx). rewrite Hw in Hx.
  apply Forall2_app_inv_r in Hx as (x1 & x2 & Hx1 & Hx2 & ->).
  apply Forall2_length in Hx1.
  apply Forall2_cons_inv_r in Hx2 as (a & x3 & Ha%lit_colon & _ & ->). subst a.
  assert (length wv <= length d2)%nat as Hlen.
  { destruct (decide (length wv <= length d2)%nat) as [|Hgt]; [done|].
    exfalso. apply (tail_not_blank d1 d2 Hclean Hne).
    apply (f_equal (take (length d2))) in Heq.
    rewrite take_app_length, take_app_le in Heq by lia.
    rewrite Heq. by apply Forall_take. }
  set (A := d2 ++ newline :: key).
  assert (Forall (fun a => a <> ":"%char) A) as HA.
  { apply Forall_app. split; [done|]. by constructor. }
  assert ((A ++ ":"%char :: " "%char :: tail) !! (length wv + length x1)%nat
          = Some ":"%char) as Hlook.
  { replace (A ++ ":"%char :: " "%char :: tail)
      with (d2 ++ newline :: key ++ ":"%char :: " "%char :: tail)
      by (unfold A; by rewrite <- app_assoc).
    rewrite Heq, <- app_assoc, app_assoc.
    rewrite <- length_app. by apply list_lookup_middle. }
  rewrite lookup_app_l in Hlook.
  - apply list_elem_of_lookup_2 in Hlook.
    rewrite Forall_forall in HA. by apply (HA _ Hlook).
  - unfold A. rewrite length_app. cbn [length]. lia.
Qed.

(** The closing lookahead cannot hold inside a field text that mentions
    none of the section words and ends the transcript. *)
Lemma no_header_inside (words : list string) (w0 : string) (ws : list string)
    (f1 f2 : str) (c : caps) (s' : str) (c' : caps) :
  Forall (fun w => occurs_nocase (list_ascii_of_string w) (f1 ++ f2) = false) (w0 :: ws) ->
  f2 <> [] -> starts_clean (rev (f1 ++ f2)) ->
  matches DOTALL_IGNORECASE
    (Seq (Look (alts (lit w0) (map lit ws ++ [Eos]))) Eps) f2 c s' c' -> False.
Proof.
  intros Hw Hne Hclean (s1 & c1 & (_ & s2 & Hm) & _).
  assert (forall (w : string) t u,
    occurs_nocase (list_ascii_of_string w) (f1 ++ f2) = false ->
    matches DOTALL_IGNORECASE (lit w) f2 c t u -> False) as Hlit.
  { intros w t u Ho Hl.
    destruct (matches_suffix _ _ _ _ _ _ Hl) as [x ->].
    apply matches_lit_chars, (prefix_nocase_lit _ _ t) in Hl.
    apply occurs_nocase_suffix in Ho. congruence. }
  apply Forall_cons in Hw as [Hw0 Hws].
  revert w0 Hw0 Hm. induction Hws as [|w ws Hw _ IH]; intros w0 Hw0 Hm.
  - cbn [map app alts matches] in Hm.
    destruct Hm as [Hm | (He & _)]; [exact (Hlit _ _ _ Hw0 Hm)|].
    destruct f2 as [|a [|b f2]]; [done| |discriminate He].
    apply (tail_not_blank f1 [a] Hclean); [done|].
    constructor; [|done]. cbn in He. apply N.eqb_eq in He.
    unfold is_space. by rewrite He.
  - cbn [map app alts matches] in Hm.
    destruct Hm as [Hm | Hm]; [exact (Hlit _ _ _ Hw0 Hm)|]. exact (IH _ Hw Hm).
Qed.

(** ** Blocks followed by further blocks *)

Lemma rmatch_seq fl r1 r2 {R} (s : str) (c : caps) (k : str -> caps -> option R) :
  rmatch fl (Seq r1 r2) s c k = rmatch fl r1 s c (fun s' c' => rmatch fl r2 s' c' k).
Proof. reflexivity. Qed.


(** What matches a non-whitespace literal is not whitespace. *)
Lemma lit_not_space (p a : ascii) :
  is_space p = false ->
  cset_match DOTALL_IGNORECASE (CLit p) a = true -> is_space a = false.
Proof.
  intros Hp Ha. cbn in Ha. apply N.eqb_eq in Ha.
  assert (to_lower a = to_lower p) as Heq.
  { rewrite <- (ascii_N_embedding (to_lower a)), <- (ascii_N_embedding (to_lower p)).
    by f_equal. }
  by rewrite <- (to_lower_space a), Heq, to_lower_space.
Qed.

Lemma lit_word_not_space (w x : str) :
  Forall (fun p => is_space p = false) w ->
  Forall2 (fun a p => cset_match DOTALL_IGNORECASE (CLit p) a = true) x w ->
  Forall (fun a => is_space a = false) x.
Proof.
  intros Hw Hx. induction Hx as [|a p x w Hap _ IH]; [done|].
  apply Forall_cons in Hw as [Hp Hw]. constructor; [by eapply lit_not_space|auto].
Qed.

(** A word of letters cannot begin, at a place inside a field text or
    inside the blank text after it, unless it occurs in the field. *)
Lemma no_word_before (w : string) (f sep v1 v2 rest x s1 : str) :
  list_ascii_of_string w <> [] ->
  Forall (fun p => is_space p = false) (list_ascii_of_string w) ->
  occurs_nocase (list_ascii_of_string w) f = false ->
  Forall (fun a => is_space a = true) sep -> sep <> [] ->
  f ++ sep = v1 ++ v2 -> v2 <> [] ->
  v2 ++ rest = x ++ s1 ->
  Forall2 (fun a p => cset_match DOTALL_IGNORECASE (CLit p) a = true) x
    (list_ascii_of_string w) ->
  False.
Proof.
  intros Hw0 Hw Hocc Hsep Hsep0 Hsplit Hv2 Heq Hx.
  pose proof (lit_word_not_space _ _ Hw Hx) as Hxs.
  assert (x <> []) as Hx0.
  { intros ->. apply Forall2_nil_inv_l in Hx. done. }
  assert (forall (b : ascii) (u t : str),
            is_space b = true -> (b :: u) ++ t = x ++ s1 -> False) as Hblank.
  { intros b u t Hb Hbu. destruct x as [|a x]; [done|].
    injection Hbu as -> _. apply Forall_cons in Hxs as [Ha _]. congruence. }
  apply app_eq_inv in Hsplit as [(k & -> & ->) | (k & -> & Hk)].
  - (* v2 = k ++ sep, with k a tail of the field *)
    rewrite <- app_assoc in Heq.
    apply app_eq_inv in Heq as [(k' & -> & Hk') | (k' & -> & Hk')].
    + (* the word lies within k *)
      apply occurs_nocase_suffix in Hocc.
      by rewrite (prefix_nocase_lit _ _ k' Hx) in Hocc.
    + (* the word runs past k *)
      destruct k' as [|b k'].
      * rewrite app_nil_r in Hx, Hxs.
        apply occurs_nocase_suffix in Hocc.
        rewrite <- (app_nil_r k) in Hocc.
        by rewrite (prefix_nocase_lit _ _ [] Hx) in Hocc.
      * destruct sep as [|b' sep]; [done|].
        apply Forall_app in Hxs as [_ [Hb _]%Forall_cons].
        apply Forall_cons in Hsep as [Hb' _].
        injection Hk' as -> _. congruence.
  - (* v2 is a tail of the blank text *)
    destruct v2 as [|b v2]; [done|].
    apply (Hblank b v2 rest); [|done].
    rewrite Hk in Hsep. by apply Forall_app in Hsep as [_ [? _]%Forall_cons].
Qed.

(** The closing lookahead cannot hold inside a field text, nor in the
    blank text after it, when the field mentions none of the section
    words and more text follows. *)
Lemma no_header_before (w0 : string) (ws : list string)
    (f sep v1 v2 rest : str) (c : caps) (s' : str) (c' : caps) :
  Forall (fun w => list_ascii_of_string w <> [] /\
                   Forall (fun p => is_space p = false) (list_ascii_of_string w) /\
                   occurs_nocase (list_ascii_of_string w) f = false) (w0 :: ws) ->
  Forall (fun a => is_space a = true) sep -> sep <> [] ->
  f ++ sep = v1 ++ v2 -> v2 <> [] -> rest <> [] ->
  matches DOTALL_IGNORECASE
    (Seq (Look (alts (lit w0) (map lit ws ++ [Eos]))) Eps) (v2 ++ rest) c s' c' -> False.
Proof.
  intros Hw Hsep Hsep0 Hsplit Hv2 Hrest (s1 & c1 & (_ & s2 & Hm) & _).
  assert (forall (w : string) t u,
    (list_ascii_of_string w <> [] /\
     Forall (fun p => is_space p = false) (list_ascii_of_string w) /\
     occurs_nocase (list_ascii_of_string w) f = false) ->
    matches DOTALL_IGNORECASE (lit w) (v2 ++ rest) c t u -> False) as Hlit.
  { intros w t u (Hw0 & Hws & Ho) Hl.
    destruct (matches_suffix _ _ _ _ _ _ Hl) as [x Hx]. rewrite Hx in Hl.
    apply matches_lit_chars in Hl.
    by eapply (no_word_before w f sep v1 v2 rest x t). }
  apply Forall_cons in Hw as [Hw0 Hws].
  revert w0 Hw0 Hm. induction Hws as [|w ws Hw _ IH]; intros w0 Hw0 Hm.
  - cbn [map app alts matches] in Hm.
    destruct Hm as [Hm | (He & _)]; [exact (Hlit _ _ _ Hw0 Hm)|].
    destruct v2 as [|a v2]; [done|]. destruct rest as [|b rest]; [done|].
    destruct v2; discriminate He.
  - cbn [map app alts matches] in Hm.
    destruct Hm as [Hm | Hm]; [exact (Hlit _ _ _ Hw0 Hm)|]. exact (IH _ Hw Hm).
Qed.

Lemma lstrip_blank (sep s : str) :
  Forall (fun a => is_space a = true) sep -> lstrip (sep ++ s) = lstrip s.
Proof. induction 1 as [|a sep Ha _ IH]; simpl; [done|]. by rewrite Ha. Qed.

(** Blank text after a field text is stripped away. *)
Lemma strip_field_blank (f sep : str) :
  starts_clean f -> starts_clean (rev f) ->
  Forall (fun a => is_space a = true) sep ->
  strip (f ++ sep) = f.
Proof.
  intros Hf Hr Hsep. rewrite <- (strip_field f Hf Hr) at 2.
  unfold strip, rstrip. do 2 f_equal.
  rewrite rev_app_distr. apply lstrip_blank. by apply Forall_rev.
Qed.

Lemma findall_skip fl r (m rest : str) :
  findall_from fl r (length m) (m ++ rest) = findall_from fl r 0 rest.
Proof. induction m as [|a m IH]; [done|]. exact IH. Qed.

(** After a non-empty match, [findall] goes on where the match ended. *)
Lemma findall_cons fl r (m rest : str) (c : caps) :
  m <> [] -> match_at fl r (m ++ rest) = Some (rest, c) ->
  re_findall fl r (m ++ rest) = c :: re_findall fl r rest.
Proof.
  intros Hne Hm. unfold re_findall.
  destruct m as [|a m]; [done|].
  change ((a :: m) ++ rest) with (a :: m ++ rest) in *.
  cbn [findall_from]. rewrite Hm. f_equal.
  replace (length (a :: m ++ rest) - length rest - 1)%nat with (length m)
    by (cbn [length]; rewrite length_app; lia).
  apply findall_skip.
Qed.

Lemma findall_nil fl r : match_at fl r [] = None -> re_findall fl r [] = [].
Proof. intros H. unfold re_findall. cbn. by rewrite H. Qed.

(** The lookahead holds where its first word is written out. *)
Lemma rmatch_look_word {R} (w0 : string) (alt : list regex) (rest : str) (c : caps)
    (k : str -> caps -> option R) :
  rmatch DOTALL_IGNORECASE (Seq (Look (alts (lit w0) alt)) Eps)
    (list_ascii_of_string w0 ++ rest) c k = k (list_ascii_of_string w0 ++ rest) c.
Proof.
  rewrite rmatch_seq. cbn [rmatch].
  assert (rmatch DOTALL_IGNORECASE (alts (lit w0) alt) (list_ascii_of_string w0 ++ rest) c
            (fun _ c' => Some c') = Some c) as ->; [|done].
  destruct alt as [|r alt]; cbn [alts rmatch].
  - by rewrite rmatch_lit by apply lit_self.
  - by rewrite rmatch_lit by apply lit_self.
Qed.



(** ** Vulnerability blocks *)


Lemma words_checked (words : list string) (s : string) :
  Forall (fun w => list_ascii_of_string w <> [] /\
                   Forall (fun p => is_space p = false) (list_ascii_of_string w)) words ->
  mentions words s = false ->
  Forall (fun w => list_ascii_of_string w <> [] /\
                   Forall (fun p => is_space p = false) (list_ascii_of_string w) /\
                   occurs_nocase (list_ascii_of_string w) (list_ascii_of_string s) = false)
    words.
Proof.
  intros Hw Hm%mentions_false. induction Hw as [|w words [H1 H2] _ IH]; [done|].
  apply Forall_cons in Hm as [Hm Hms]. constructor; auto.
Qed.



Lemma field_string (s : string) :
  field_text s = true ->
  string_of_list_ascii (strip (list_ascii_of_string s)) = s.
Proof.
  intros (_ & H1 & H2)%field_text_true.
  by rewrite strip_field, string_of_list_ascii_of_string.
Qed.

Lemma field_string_blank (s : string) (sep : str) :
  field_text s = true -> Forall (fun a => is_space a = true) sep ->
  string_of_list_ascii (strip (list_ascii_of_string s ++ sep)) = s.
Proof.
  intros (_ & H1 & H2)%field_text_true Hsep.
  by rewrite strip_field_blank, string_of_list_ascii_of_string.
Qed.

Lemma block_end_blank (word : string) (sep rest : str) :
  block_end word sep rest -> Forall (fun a => is_space a = true) sep.
Proof. by intros [[-> _] | (_ & ? & _)]. Qed.







(** ** Optimization blocks *)

Lemma optimization_block_chars (n iss loc tech sav : string) :
  list_ascii_of_string (optimization_block n iss loc tech sav) =
    list_ascii_of_string "OPTIMIZATION" ++ " "%char :: list_ascii_of_string n ++
    list_ascii_of_string ": " ++ list_ascii_of_string iss ++
    [newline] ++ list_ascii_of_string "Location: " ++ list_ascii_of_string loc ++
    [newline] ++ list_ascii_of_string "Technique: " ++ list_ascii_of_string tech ++
    [newline] ++ list_ascii_of_string "Savings: " ++ list_ascii_of_string sav.
Proof.
  unfold optimization_block, text_lines. cbn [String.concat].
  rewrite !list_ascii_of_string_app. by rewrite <- !app_assoc.
Qed.

Lemma optimization_words_plain :
  Forall (fun w => list_ascii_of_string w <> [] /\
                   Forall (fun p => is_space p = false) (list_ascii_of_string w))
    optimization_words.
Proof. repeat constructor; done. Qed.

Lemma opt_match_block (n iss loc tech sav : string) (sep rest : str) :
  all_digits n = true ->
  field_text iss = true -> has_char ":" iss = false ->
  field_text loc = true -> has_char ":" loc = false ->
  field_text tech = true -> has_char ":" tech = false ->
  field_text sav = true ->
  mentions optimization_words sav = false ->
  block_end "OPTIMIZATION" sep rest ->
  match_at DOTALL_IGNORECASE opt_pattern
    (list_ascii_of_string (optimization_block n iss loc tech sav) ++ sep ++ rest) =
  Some (rest, [Some (list_ascii_of_string iss); Some (list_ascii_of_string loc);
               Some (list_ascii_of_string tech); Some (list_ascii_of_string sav ++ sep)]).
Proof.
  intros [Hn0 Hn]%all_digits_true
    (Hi0 & _ & Hiend)%field_text_true Hic%has_char_false
    (Hl0 & _ & Hlend)%field_text_true Hlc%has_char_false
    (Ht0 & _ & Htend)%field_text_true Htc%has_char_false
    (Hs0 & _ & Hsend)%field_text_true Hment Hend.
  rewrite optimization_block_chars.
  change (list_ascii_of_string "OPTIMIZATION" ++ " "%char :: ?t)
    with (list_ascii_of_string "OPTIMIZATION " ++ t).
  rewrite <- !app_assoc.
  unfold match_at, opt_pattern, seqs. cbn [foldr].
  change (replicate _ _) with [@None str; None; None; None].
  rewrite rmatch_seq, rmatch_lit by apply lit_self.
  rewrite rmatch_seq. apply rmatch_digits; [done|done|done|].
  rewrite rmatch_seq, rmatch_lit by apply lit_self.
  rewrite rmatch_seq. apply rmatch_group_lazy; [done| |].
  { intros v1 v2 Hv _ Hv2. apply rmatch_none. intros s' c'.
    eapply (no_key_inside "Location: " (list_ascii_of_string "Location") _ v1 v2);
      [done|by repeat constructor|done|by rewrite <- Hv|].
    rewrite Hv in Hic. by apply Forall_app in Hic as [_ ?]. }
  rewrite rmatch_seq. apply rmatch_spaces; [by repeat constructor|done|].
  rewrite rmatch_seq, rmatch_lit by apply lit_self.
  rewrite rmatch_seq. apply rmatch_group_lazy; [done| |].
  { intros v1 v2 Hv _ Hv2. apply rmatch_none. intros s' c'.
    eapply (no_key_inside "Technique: " (list_ascii_of_string "Technique") _ v1 v2);
      [done|by repeat constructor|done|by rewrite <- Hv|].
    rewrite Hv in Hlc. by apply Forall_app in Hlc as [_ ?]. }
  rewrite rmatch_seq. apply rmatch_spaces; [by repeat constructor|done|].
  rewrite rmatch_seq, rmatch_lit by apply lit_self.
  rewrite rmatch_seq. apply rmatch_group_lazy; [done| |].
  { intros v1 v2 Hv _ Hv2. apply rmatch_none. intros s' c'.
    eapply (no_key_inside "Savings: " (list_ascii_of_string "Savings") _ v1 v2);
      [done|by repeat constructor|done|by rewrite <- Hv|].
    rewrite Hv in Htc. by apply Forall_app in Htc as [_ ?]. }
  rewrite rmatch_seq. apply rmatch_spaces; [by repeat constructor|done|].
  rewrite rmatch_seq, rmatch_lit by apply lit_self.
  rewrite app_assoc, rmatch_seq.
  apply rmatch_group_lazy; [by destruct (list_ascii_of_string sav)| |].
  - intros v1 v2 Hv _ Hv2. apply rmatch_none. intros s' c'.
    destruct Hend as [[-> ->] | (Hsep0 & Hsep & rest' & ->)].
    + rewrite app_nil_r in *.
      apply (no_header_inside [] "OPTIMIZATION" ["QUALITY"; "EXECUTIVE"] v1 v2);
        [|done|by rewrite <- Hv].
      rewrite <- Hv. by apply mentions_false.
    + apply (no_header_before "OPTIMIZATION" ["QUALITY"; "EXECUTIVE"]
               (list_ascii_of_string sav) sep v1 v2); try done.
      by apply (words_checked _ _ optimization_words_plain).
  - destruct Hend as [[-> ->] | (Hsep0 & Hsep & rest' & ->)]; [reflexivity|].
    cbv beta. by rewrite rmatch_look_word.
Qed.

Lemma well_formed_optimization_true (g : GasOptimization) :
  well_formed_optimization g = true ->
  field_text (issue g) = true /\ has_char ":" (issue g) = false /\
  field_text (location g) = true /\ has_char ":" (location g) = false /\
  field_text (technique g) = true /\ has_char ":" (technique g) = false /\
  field_text (potential_savings g) = true /\
  mentions optimization_words (potential_savings g) = false /\
  current_cost g = "N/A" /\ example g = EmptyString.
Proof.
  unfold well_formed_optimization.
  rewrite !andb_true_iff, !negb_true_iff, !bool_decide_eq_true. tauto.
Qed.

Lemma gas_optimization_of_block (g : GasOptimization) (sep : str) :
  well_formed_optimization g = true ->
  Forall (fun a => is_space a = true) sep ->
  gas_optimization_of
    [Some (list_ascii_of_string (issue g)); Some (list_ascii_of_string (location g));
     Some (list_ascii_of_string (technique g));
     Some (list_ascii_of_string (potential_savings g) ++ sep)] = inr g.
Proof.
  intros (Hi & _ & Hl & _ & Ht & _ & Hs & _ & Hc & He)%well_formed_optimization_true Hsep.
  unfold gas_optimization_of, stripped. cbn.
  rewrite (field_string _ Hi), (field_string _ Hl), (field_string _ Ht),
    (field_string_blank _ _ Hs Hsep).
  destruct g; cbn in *. by subst.
Qed.

Lemma render_optimization_head (b : string * GasOptimization)
    (bs : list (string * GasOptimization)) :
  exists rest', list_ascii_of_string (render_optimizations (b :: bs)) =
                list_ascii_of_string "OPTIMIZATION" ++ rest'.
Proof.
  unfold render_optimizations. destruct bs as [|b' bs]; cbn [map String.concat].
  - unfold render_optimization. rewrite optimization_block_chars. eauto.
  - rewrite list_ascii_of_string_app. unfold render_optimization at 1.
    rewrite optimization_block_chars, <- !app_assoc. eauto.
Qed.

Lemma opt_findall_rendered (bs : list (string * GasOptimization)) :
  Forall (fun b => all_digits b.1 = true /\ well_formed_optimization b.2 = true) bs ->
  mapM gas_optimization_of
    (re_findall DOTALL_IGNORECASE opt_pattern
       (list_ascii_of_string (render_optimizations bs))) = inr (map snd bs).
Proof.
  induction 1 as [|b bs [Hn Hwf] Hbs IH].
  - by rewrite findall_nil.
  - pose proof Hwf as (Hi & Hic & Hl & Hlc & Ht & Htc & Hs & Hment & _)
      %well_formed_optimization_true.
    assert (forall sep rest, block_end "OPTIMIZATION" sep rest ->
      mapM gas_optimization_of (re_findall DOTALL_IGNORECASE opt_pattern rest) =
        inr (map snd bs) ->
      mapM gas_optimization_of
        (re_findall DOTALL_IGNORECASE opt_pattern
           (list_ascii_of_string (render_optimization b) ++ sep ++ rest)) =
        inr (map snd (b :: bs))) as Hstep.
    { intros sep rest Hend Hrest.
      pose proof (opt_match_block _ _ _ _ _ sep rest Hn Hi Hic Hl Hlc Ht Htc Hs
                    Hment Hend) as Hm.
      fold (render_optimization b) in Hm. rewrite app_assoc in Hm |- *.
      assert (list_ascii_of_string (render_optimization b) ++ sep <> []) as Hne.
      { unfold render_optimization. by rewrite optimization_block_chars. }
      rewrite (findall_cons _ _ _ _ _ Hne Hm).
      cbn [mapM mbind result_bind]. rewrite Hrest.
      by rewrite (gas_optimization_of_block _ _ Hwf (block_end_blank _ _ _ Hend)). }
    destruct bs as [|b' bs].
    + specialize (Hstep [] [] ltac:(by left) ltac:(by rewrite findall_nil)).
      rewrite !app_nil_r in Hstep. exact Hstep.
    + destruct (render_optimization_head b' bs) as [rest' Hrest'].
      specialize (Hstep (list_ascii_of_string blank_line)
                    (list_ascii_of_string (render_optimizations (b' :: bs)))).
      unfold render_optimizations in *. cbn [map String.concat] in *.
      rewrite !list_ascii_of_string_app. apply Hstep; [|exact IH].
      right. split; [done|]. split; [by repeat constructor|]. eauto.
Qed.

(** X14. Writing any list of well-formed gas optimizations as numbered
    blocks in the format of the prompt, a blank line between them, and
    parsing the text gives the same optimizations back, as many and in
    the same order, field for field. *)
Theorem rendered_optimizations_parsed (bs : list (string * GasOptimization)) :
  forallb (fun b => all_digits b.1 && well_formed_optimization b.2) bs = true ->
  exists o, parse_crew_output (render_optimizations bs) = inr o /\
            out_gas_optimizations o = map snd bs.
Proof.
  intros Hbs.
  assert (Forall (fun b => all_digits b.1 = true /\ well_formed_optimization b.2 = true) bs)
    as Hall.
  { apply Forall_forall. intros b Hb%list_elem_of_In.
    rewrite forallb_forall in Hbs. by apply andb_true_iff, Hbs. }
  set (t := list_ascii_of_string (render_optimizations bs)).
  destruct (vulnerabilities_ok t) as (vs & Hv & _).
  destruct (quality_score_of_ok t) as (q & Hq).
  destruct (recommendations_of_ok t) as (recs & Hr & _).
  eexists. split.
  - eapply parse_crew_output_steps; [exact Hv| |exact Hq|exact Hr].
    by apply opt_findall_rendered.
  - reflexivity.
Qed.

Lemma rendered_optimizations_parsed_witness :
  exists o, parse_crew_output (render_optimizations sample_optimizations) = inr o /\
            out_gas_optimizations o = map snd sample_optimizations.
Proof. apply rendered_optimizations_parsed. reflexivity. Defined.

(** ** The recommendation list *)

Lemma rmatch_group_lazy_dotall fl {R} i (v s : str) (c : caps)
    (k : str -> caps -> option R) (x : R) :
  dotall fl = true ->
  v <> [] ->
  (forall v1 v2, v = v1 ++ v2 -> v1 <> [] -> v2 <> [] ->
     k (v2 ++ s) (<[pred i := Some v1]> c) = None) ->
  k s (<[pred i := Some v]> c) = Some x ->
  rmatch fl (Group i any_lazy) (v ++ s) c k = Some x.
Proof.
  intros Hfl Hne Hnone Hk. destruct v as [|a v]; [done|].
  cbn [rmatch any_lazy plus app cset_match]. rewrite Hfl. cbn [orb].
  apply lazy_star_first.
  - apply Forall_forall. intros b _. cbn. by rewrite Hfl.
  - intros u1 u2 -> Hu2.
    assert (a :: (u1 ++ u2) ++ s = (a :: u1) ++ (u2 ++ s)) as ->
      by (cbn [app]; by rewrite <- app_assoc).
    rewrite take_consumed. by apply (Hnone (a :: u1) u2).
  - change (a :: v ++ s) with ((a :: v) ++ s). by rewrite take_consumed.
Qed.

Lemma rmatch_opt_take fl {R} cs (a : ascii) (s : str) (c : caps)
    (k : str -> caps -> option R) (x : R) :
  cset_match fl cs a = true -> k s c = Some x ->
  rmatch fl (opt cs) (a :: s) c k = Some x.
Proof. intros Ha Hk. cbn [opt rmatch]. by rewrite Ha, Hk. Qed.

Lemma render_recommendations_chars (items : list (string * string)) :
  list_ascii_of_string (render_recommendations items) =
    list_ascii_of_string "RECOMMENDATIONS:" ++ items_body items.
Proof.
  unfold render_recommendations, text_lines.
  generalize "RECOMMENDATIONS:" as h.
  induction items as [|b items IH]; intros h.
  - cbn. by rewrite app_nil_r.
  - change (String.concat nl (h :: map render_recommendation (b :: items)))
      with (h +:+ nl +:+
            String.concat nl (render_recommendation b :: map render_recommendation items)).
    rewrite !list_ascii_of_string_app, IH. unfold render_recommendation.
    rewrite !list_ascii_of_string_app. cbn [items_body].
    by rewrite <- !app_assoc.
Qed.

(** *** Section words do not occur across item lines *)

Lemma letter_no_match (a p : ascii) :
  is_letter (to_lower p) = true -> is_letter (to_lower a) = false ->
  (code (to_lower a) =? code (to_lower p))%N = false.
Proof.
  intros Hp Ha. destruct (code (to_lower a) =? code (to_lower p))%N eqn:He; [|done].
  apply N.eqb_eq in He.
  assert (to_lower a = to_lower p) as Heq.
  { rewrite <- (ascii_N_embedding (to_lower a)), <- (ascii_N_embedding (to_lower p)).
    by f_equal. }
  congruence.
Qed.

Lemma prefix_nocase_cut (w u s : str) (a : ascii) :
  Forall (fun p => is_letter (to_lower p) = true) w ->
  is_letter (to_lower a) = false ->
  prefix_nocase w (u ++ a :: s) = true -> prefix_nocase w u = true.
Proof.
  intros Hw Ha. revert u. induction Hw as [|p w Hp _ IH]; intros u; [by destruct u|].
  destruct u as [|b u]; cbn [app prefix_nocase].
  - by rewrite (letter_no_match a p Hp Ha).
  - intros [Hb Hrest]%andb_true_iff. rewrite Hb. by apply IH.
Qed.

(** A word of letters that occurs in a text around a non-letter occurs
    before it or after it. *)
Lemma occurs_nocase_cut (w u s : str) (a : ascii) :
  w <> [] ->
  Forall (fun p => is_letter (to_lower p) = true) w ->
  is_letter (to_lower a) = false ->
  occurs_nocase w (u ++ a :: s) = true ->
  occurs_nocase w u = true \/ occurs_nocase w s = true.
Proof.
  intros Hw0 Hw Ha. induction u as [|b u IH]; cbn [app occurs_nocase].
  - intros [H | H]%orb_true_iff; [|by right].
    destruct w as [|p w]; [done|]. apply Forall_cons in Hw as [Hp _].
    cbn in H. by rewrite (letter_no_match a p Hp Ha) in H.
  - intros [H | H]%orb_true_iff.
    + left. apply orb_true_iff. left. by eapply prefix_nocase_cut.
    + destruct (IH H) as [Hu | Hs]; [left|by right].
      apply orb_true_iff. by right.
Qed.

Lemma occurs_nocase_skip (w sep s : str) :
  w <> [] ->
  Forall (fun p => is_letter (to_lower p) = true) w ->
  Forall (fun a => is_letter (to_lower a) = false) sep ->
  occurs_nocase w (sep ++ s) = true -> occurs_nocase w s = true.
Proof.
  intros Hw0 Hw Hsep. induction Hsep as [|a sep Ha _ IH]; [done|].
  intros H. apply IH.
  destruct (occurs_nocase_cut w [] (sep ++ s) a Hw0 Hw Ha H) as [Hn | Hs]; [|done].
  destruct w; [done|]. discriminate Hn.
Qed.

Lemma digit_not_letter (a : ascii) : is_digit a = true -> is_letter (to_lower a) = false.
Proof. by destruct a as [[] [] [] [] [] [] [] []]. Qed.

Lemma well_formed_recommendation_true (r : string) :
  well_formed_recommendation r = true ->
  field_text r = true /\ has_digit r = false /\ mentions recommendation_words r = false.
Proof.
  unfold well_formed_recommendation.
  rewrite !andb_true_iff, !negb_true_iff. tauto.
Qed.

Lemma items_body_no_word (w : string) (items : list (string * string)) :
  w ∈ recommendation_words ->
  Forall (fun b => all_digits b.1 = true /\ well_formed_recommendation b.2 = true) items ->
  occurs_nocase (list_ascii_of_string w) (items_body items) = false.
Proof.
  intros Hw Hitems.
  assert (list_ascii_of_string w <> [] /\
          Forall (fun p => is_letter (to_lower p) = true) (list_ascii_of_string w))
    as [Hw0 Hwl].
  { unfold recommendation_words in Hw.
    apply elem_of_cons in Hw as [-> | Hw]; [split; [done|by repeat constructor]|].
    apply elem_of_cons in Hw as [-> | Hw]; [split; [done|by repeat constructor]|].
    by apply elem_of_nil in Hw. }
  induction Hitems as [|b items [Hn Hr] _ IH]; [by destruct (list_ascii_of_string w)|].
  apply well_formed_recommendation_true in Hr as (_ & _ & Hment).
  apply mentions_false in Hment. rewrite Forall_forall in Hment.
  specialize (Hment w Hw).
  apply all_digits_true in Hn as [_ Hn].
  destruct (occurs_nocase _ (items_body (b :: items))) eqn:Ho; [|done]. exfalso.
  cbn [items_body] in Ho.
  apply (occurs_nocase_skip _ [newline]) in Ho; [|done|done|by repeat constructor].
  apply occurs_nocase_skip in Ho; [|done|done|].
  2: { eapply Forall_impl; [exact Hn|]. intros a. apply digit_not_letter. }
  apply (occurs_nocase_skip _ (list_ascii_of_string ". ")) in Ho;
    [|done|done|by repeat constructor].
  destruct items as [|b' items].
  - cbn [items_body] in Ho. rewrite app_nil_r in Ho. congruence.
  - cbn [items_body] in Ho, IH.
    apply occurs_nocase_cut in Ho as [Ho | Ho]; [congruence| |done|done|done].
    assert (occurs_nocase (list_ascii_of_string w)
              (newline :: list_ascii_of_string b'.1 ++ list_ascii_of_string ". " ++
               list_ascii_of_string b'.2 ++ items_body items) = true) as Hfull.
    { cbn [occurs_nocase]. apply orb_true_iff. by right. }
    congruence.
Qed.

Lemma starts_clean_app (x y : str) : x <> [] -> starts_clean x -> starts_clean (x ++ y).
Proof. by destruct x. Qed.

Lemma rev_not_nil (x : str) : x <> [] -> rev x <> [].
Proof.
  intros Hx Hr. apply (f_equal (@rev ascii)) in Hr.
  rewrite rev_involutive in Hr. done.
Qed.

Lemma items_body_end (b : string * string) (items : list (string * string)) :
  Forall (fun b => all_digits b.1 = true /\ well_formed_recommendation b.2 = true)
    (b :: items) ->
  starts_clean (rev (items_body (b :: items))).
Proof.
  revert b. induction items as [|b' items IH]; intros b Hall.
  - apply Forall_cons in Hall as [[_ Hr] _].
    apply well_formed_recommendation_true in Hr as [(Hr0 & _ & Hend)%field_text_true _].
    cbn [items_body]. rewrite app_nil_r.
    change (newline :: ?n ++ ?d ++ ?r) with ([newline] ++ n ++ d ++ r).
    rewrite !app_assoc, rev_app_distr.
    apply starts_clean_app; [by apply rev_not_nil|done].
  - apply Forall_cons in Hall as [_ Hall]. specialize (IH b' Hall).
    change (items_body (b :: b' :: items))
      with (newline :: list_ascii_of_string b.1 ++ list_ascii_of_string ". " ++
            list_ascii_of_string b.2 ++ items_body (b' :: items)).
    change (newline :: ?n ++ ?d ++ ?r ++ ?t) with ([newline] ++ n ++ d ++ r ++ t).
    rewrite !app_assoc, rev_app_distr.
    apply starts_clean_app; [|done]. by apply rev_not_nil.
Qed.

(** The header captures all the item lines. *)
Lemma rec_search_rendered (b : string * string) (items : list (string * string)) :
  Forall (fun b => all_digits b.1 = true /\ well_formed_recommendation b.2 = true)
    (b :: items) ->
  re_search DOTALL_IGNORECASE rec_pattern
    (list_ascii_of_string (render_recommendations (b :: items))) =
  Some [Some (items_body (b :: items))].
Proof.
  intros Hall. rewrite render_recommendations_chars.
  apply (re_search_here _ _ _ []).
  change (list_ascii_of_string "RECOMMENDATIONS:" ++ ?t)
    with (list_ascii_of_string "RECOMMENDATION" ++ "S"%char :: [":"%char] ++ t).
  unfold match_at, rec_pattern, seqs. cbn [foldr].
  change (replicate _ _) with [@None str].
  rewrite rmatch_seq, rmatch_lit by apply lit_self.
  rewrite rmatch_seq. apply rmatch_opt_take; [done|].
  rewrite rmatch_seq, (rmatch_lit _ ":" [":"%char]) by apply lit_self.
  rewrite <- (app_nil_r (items_body (b :: items))).
  rewrite rmatch_seq.
  apply rmatch_group_lazy; [done| |by rewrite app_nil_r].
  intros v1 v2 Hv _ Hv2. apply rmatch_none. intros s' c'. rewrite app_nil_r.
  apply (no_header_inside [] "COMPLIANCE" ["EXECUTIVE"] v1 v2);
    [|done|rewrite <- Hv; by apply items_body_end].
  rewrite <- Hv.
  constructor; [apply items_body_no_word; [by left|done]|].
  constructor; [apply items_body_no_word; [by right; left|done]|done].
Qed.

(** *** The items *)

(** Inside an item text without digits, or at the newline after it, no
    further item begins and the text does not end. *)
Lemma no_item_start (f sep v1 v2 rest : str) (c : caps) (s' : str) (c' : caps) :
  Forall (fun a => is_digit a = false) (f ++ sep) ->
  starts_clean (rev f) ->
  (sep = [] /\ rest = []) \/ rest <> [] ->
  f ++ sep = v1 ++ v2 -> v2 <> [] ->
  matches DOTALL
    (Seq (Look (alts (seqs [digits; lit "."]) [Eos])) Eps) (v2 ++ rest) c s' c' -> False.
Proof.
  intros Hnd Hclean Hend Hsplit Hv2 (s1 & c1 & (_ & s2 & Hm) & _).
  rewrite Hsplit in Hnd. apply Forall_app in Hnd as [_ Hnd].
  destruct v2 as [|a v2]; [done|]. apply Forall_cons in Hnd as [Ha _].
  cbn [alts seqs foldr matches] in Hm.
  destruct Hm as [(s3 & c3 & Hd & _) | (He & _)].
  - change ((a :: v2) ++ rest) with (a :: v2 ++ rest) in Hd.
    destruct Hd as (s4 & c4 & (a' & Heq & Ha' & _) & _).
    injection Heq as <- _. cbn in Ha'. congruence.
  - destruct Hend as [[-> ->] | Hrest].
    + rewrite app_nil_r in *. destruct v2; [|discriminate He].
      apply (tail_not_blank v1 [a]); [by rewrite <- Hsplit|done|].
      constructor; [|done]. cbn in He. apply N.eqb_eq in He.
      unfold is_space. by rewrite He.
    + destruct rest; [done|]. destruct v2; discriminate He.
Qed.

(** The lookahead of the item pattern holds where an item begins. *)
Lemma rmatch_look_item {R} (n tail : str) (c : caps) (k : str -> caps -> option R) :
  n <> [] -> Forall (fun a => is_digit a = true) n ->
  rmatch DOTALL (Seq (Look (alts (seqs [digits; lit "."]) [Eos])) Eps)
    (n ++ "."%char :: tail) c k = k (n ++ "."%char :: tail) c.
Proof.
  intros Hn0 Hn. rewrite rmatch_seq. cbn [alts seqs foldr].
  change (rmatch DOTALL (Look (Alt ?r1 ?r2)) ?s ?c0 ?k0)
    with (match or_else (rmatch DOTALL r1 s c0 (fun _ c' => Some c'))
                  (rmatch DOTALL r2 s c0 (fun _ c' => Some c')) with
          | Some c' => k0 s c'
          | None => None
          end).
  assert (rmatch DOTALL (Seq digits (Seq (lit ".") Eps)) (n ++ "."%char :: tail) c
            (fun _ c' => Some c') = Some c) as ->; [|done].
  rewrite rmatch_seq. apply rmatch_digits; [done|done|done|].
  change ("."%char :: tail) with (["."%char] ++ tail).
  by rewrite rmatch_seq, (rmatch_lit _ "." ["."%char]) by apply lit_self.
Qed.

(** One item line is matched up to the start of the next. *)
Lemma item_match (b : string * string) (items : list (string * string)) :
  all_digits b.1 = true -> well_formed_recommendation b.2 = true ->
  Forall (fun b => all_digits b.1 = true /\ well_formed_recommendation b.2 = true) items ->
  exists sep rest,
    items_body items = sep ++ rest /\
    sep = match items with [] => [] | _ => [newline] end /\
    match_at DOTALL item_pattern
      (list_ascii_of_string b.1 ++ list_ascii_of_string ". " ++
       list_ascii_of_string b.2 ++ items_body items) =
    Some (rest, [Some (list_ascii_of_string b.2 ++ sep)]).
Proof.
  intros [Hn0 Hn]%all_digits_true
    ((Hr0 & Hrs & Hrend)%field_text_true & Hnd%has_digit_false & _)
    %well_formed_recommendation_true Hitems.
  set (sep := match items with [] => [] | _ => [newline] end).
  set (rest := match items with
               | [] => []
               | b' :: items' =>
                   list_ascii_of_string b'.1 ++ list_ascii_of_string ". " ++
                   list_ascii_of_string b'.2 ++ items_body items'
               end).
  assert (items_body items = sep ++ rest) as Hbody by (by destruct items).
  exists sep, rest. split; [done|]. split; [done|].
  rewrite Hbody.
  unfold match_at, item_pattern, seqs. cbn [foldr].
  change (replicate _ _) with [@None str].
  rewrite rmatch_seq. apply rmatch_digits; [done|done|done|].
  change (list_ascii_of_string ". " ++ ?t) with (["."%char] ++ [" "%char] ++ t).
  rewrite rmatch_seq, (rmatch_lit _ "." ["."%char]) by apply lit_self.
  rewrite rmatch_seq. apply rmatch_spaces; [by repeat constructor| |].
  { destruct (list_ascii_of_string b.2); [done|]. exact Hrs. }
  rewrite app_assoc, rmatch_seq.
  apply rmatch_group_lazy_dotall;
    [done|by destruct (list_ascii_of_string b.2)| |].
  - intros v1 v2 Hv _ Hv2. apply rmatch_none. intros s' c'.
    apply (no_item_start (list_ascii_of_string b.2) sep v1 v2 rest); try done.
    + apply Forall_app. split; [done|]. unfold sep. destruct items; by repeat constructor.
    + unfold sep, rest. destruct items as [|b' items']; [by left|right].
      destruct (list_ascii_of_string b'.1) eqn:Hb'; [|done].
      apply Forall_cons in Hitems as [[[Hb0 _]%all_digits_true _] _]. done.
  - cbv beta. unfold rest. destruct items as [|b' items']; [reflexivity|].
    apply Forall_cons in Hitems as [[[Hb0 Hb]%all_digits_true _] _].
    change (list_ascii_of_string ". " ++ ?t) with ("."%char :: " "%char :: t).
    by rewrite rmatch_look_item.
Qed.

Lemma findall_step fl r (a : ascii) (s : str) :
  match_at fl r (a :: s) = None -> re_findall fl r (a :: s) = re_findall fl r s.
Proof. intros H. unfold re_findall. cbn [findall_from]. by rewrite H. Qed.

Lemma mapM_cons_inr {A B} (f : A -> result B) (x : A) (l : list A) (y : B) (ys : list B) :
  f x = inr y -> mapM f l = inr ys -> mapM f (x :: l) = inr (y :: ys).
Proof. intros Hx Hl. cbn [mapM mbind result_bind]. by rewrite Hx, Hl. Qed.

Lemma items_findall_line (items : list (string * string)) : forall b : string * string,
  Forall (fun b => all_digits b.1 = true /\ well_formed_recommendation b.2 = true)
    (b :: items) ->
  mapM (fun m => group m 1)
    (re_findall DOTALL item_pattern
       (list_ascii_of_string b.1 ++ list_ascii_of_string ". " ++
        list_ascii_of_string b.2 ++ items_body items)) =
    inr (item_texts (b :: items)).
Proof.
  induction items as [|b' items IH]; intros b Hall;
    pose proof Hall as [[Hn Hr] Hitems]%Forall_cons;
    destruct (item_match b _ Hn Hr Hitems) as (sep & rest & Hbody & -> & Hm);
    pose proof Hn as [Hn0 _]%all_digits_true;
    assert (forall y : str, list_ascii_of_string b.1 ++ y <> []) as Hne
      by (intros y; by destruct (list_ascii_of_string b.1)).
  - destruct rest; [|done]. cbn [items_body] in Hm |- *.
    rewrite <- (app_nil_r (list_ascii_of_string b.1 ++ _)) in Hm |- *.
    rewrite (findall_cons _ _ _ _ _ (Hne _) Hm).
    rewrite findall_nil by reflexivity. reflexivity.
  - cbn [items_body] in Hbody. injection Hbody as <-.
    cbn [items_body] in Hm |- *.
    match type of Hm with
    | match_at _ _ ?s = Some (?rest, _) =>
        assert (s = (list_ascii_of_string b.1 ++ list_ascii_of_string ". " ++
                     list_ascii_of_string b.2 ++ [newline]) ++ rest) as Heq
          by (by rewrite <- !app_assoc)
    end.
    rewrite Heq in Hm |- *.
    rewrite (findall_cons _ _ _ _ _ (Hne _) Hm).
    apply mapM_cons_inr; [reflexivity|]. exact (IH b' Hitems).
Qed.

Lemma items_findall (items : list (string * string)) :
  Forall (fun b => all_digits b.1 = true /\ well_formed_recommendation b.2 = true) items ->
  mapM (fun m => group m 1) (re_findall DOTALL item_pattern (items_body items)) =
    inr (item_texts items).
Proof.
  intros Hall. destruct items as [|b items]; [by rewrite findall_nil|].
  cbn [items_body]. rewrite findall_step by reflexivity.
  by apply items_findall_line.
Qed.

Lemma item_texts_stripped (items : list (string * string)) :
  Forall (fun b => all_digits b.1 = true /\ well_formed_recommendation b.2 = true) items ->
  map (fun r => string_of_list_ascii (strip r))
    (filter (fun r => strip r <> []) (item_texts items)) = map snd items.
Proof.
  induction 1 as [|b items [_ Hr] _ IH]; [done|].
  apply well_formed_recommendation_true in Hr as [Hf _].
  pose proof Hf as (Hr0 & Hrs & Hrend)%field_text_true.
  cbn [item_texts map].
  assert (Forall (fun a => is_space a = true)
            (match items with [] => [] | _ => [newline] end)) as Hsep
    by (destruct items; by repeat constructor).
  rewrite filter_cons, (strip_field_blank _ _ Hrs Hrend Hsep).
  rewrite decide_True by done. cbn [map].
  by rewrite IH, (strip_field_blank _ _ Hrs Hrend Hsep), string_of_list_ascii_of_string.
Qed.

Lemma recommendations_of_rendered (items : list (string * string)) :
  Forall (fun b => all_digits b.1 = true /\ well_formed_recommendation b.2 = true) items ->
  recommendations_of (list_ascii_of_string (render_recommendations items)) =
    inr (map snd items).
Proof.
  intros Hall. unfold recommendations_of.
  destruct items as [|b items]; [reflexivity|].
  rewrite (rec_search_rendered b items Hall).
  change (group [Some (items_body (b :: items))] 1) with
    (inr (items_body (b :: items)) : result str).
  cbn [mbind result_bind].
  rewrite (items_findall _ Hall). cbn [mbind result_bind mret result_ret].
  by rewrite (item_texts_stripped _ Hall).
Qed.

(** X15. Writing any list of well-formed recommendations as the header
    line "RECOMMENDATIONS:" and one numbered line "n. text" each, and
    parsing the text gives the same recommendations back, as many and in
    the same order. *)
Theorem rendered_recommendations_parsed (items : list (string * string)) :
  forallb (fun b => all_digits b.1 && well_formed_recommendation b.2) items = true ->
  exists o, parse_crew_output (render_recommendations items) = inr o /\
            out_recommendations o = map snd items.
Proof.
  intros Hitems.
  assert (Forall (fun b => all_digits b.1 = true /\ well_formed_recommendation b.2 = true)
            items) as Hall.
  { apply Forall_forall. intros b Hb%list_elem_of_In.
    rewrite forallb_forall in Hitems. by apply andb_true_iff, Hitems. }
  set (t := list_ascii_of_string (render_recommendations items)).
  destruct (vulnerabilities_ok t) as (vs & Hv & _).
  destruct (gas_optimizations_ok t) as (gs & Hg & _).
  destruct (quality_score_of_ok t) as (q & Hq).
  pose proof (parse_crew_output_steps _ _ _ _ _ Hv Hg Hq
                (recommendations_of_rendered items Hall)) as Hparse.
  eexists. split; [exact Hparse|reflexivity].
Qed.

Lemma rendered_recommendations_parsed_witness :
  exists o, parse_crew_output (render_recommendations sample_recommendations) = inr o /\
            out_recommendations o = map snd sample_recommendations.
Proof. apply rendered_recommendations_parsed. reflexivity. Defined.
